(** * cync: the SCP/git replication handler ([cync/handler.py])

    A shallow embedding of [ScpGitEventHandler] and of the pieces of the
    Python standard library it leans on ([str] methods, [pathlib]'s
    [PurePosixPath]), followed by the properties of the replication engine.

    Layout:
    - [PyStr], [PyStrip]: the [str] methods used by the handler;
    - [pathlib]: [PurePosixPath] parsing, joining, [parent] and [str];
    - [Cync]: the handler itself, as state-passing code in a small
      state/exception/trace monad;
    - [Main]: the constructor and [cync] of [cync/__main__.py], up to the
      start of the observer;
    - [Spec], [Laws]: the vocabulary of the statements;
    - [Hoare], [Effects], [Presence], [Monotone], [Upload], [Dispatch]:
      what each method does;
    - the properties of the specification, by component;
    - [Pool], [Config], [Handlers], [Paths] and the further properties of
      the code: invariants, notifications, reconciliation, start-up.

    What the model takes from outside the repository:
    - paramiko and scp: a session is named by its host; [connect],
      [exec_command] and [put] are recorded in the trace and do not fail
      (so [transport is not None] holds in [_get_scp_client]);
    - git: the repository is a record giving the active branch, the
      untracked files and whether the forced push succeeds;
    - watchdog: an event is its source path, destination path and directory
      flag; the handlers are called one at a time;
    - logging is left out. *)

From Stdlib Require Import Ascii String List Bool Arith Lia.
From stdpp Require Import gmap strings list.

Import ListNotations.

(** ** Python [str] methods *)

Module PyStr.

(** The double quote character, which the remote shell commands embed. *)
Definition dquote : string := String (ascii_of_nat 34) EmptyString.

(** [s.startswith(p)] *)
Fixpoint startswith (p s : string) : bool :=
  match p, s with
  | EmptyString, _ => true
  | String a p', String b s' => if Ascii.eqb a b then startswith p' s' else false
  | String _ _, EmptyString => false
  end.

(** [s.endswith(suf)]: some tail of [s] is [suf]. *)
Fixpoint endswith (suf s : string) : bool :=
  if String.eqb suf s then true
  else match s with
       | EmptyString => false
       | String _ s' => endswith suf s'
       end.

(** [s.endswith(sufs)] for a tuple of suffixes. *)
Definition endswith_any (sufs : list string) (s : string) : bool :=
  existsb (fun suf => endswith suf s) sufs.

(** [sub in s] *)
Fixpoint contains (sub s : string) : bool :=
  match s with
  | EmptyString => startswith sub EmptyString
  | String _ s' => startswith sub s || contains sub s'
  end.

(** [s[n:]] *)
Fixpoint drop (n : nat) (s : string) : string :=
  match n, s with
  | O, _ => s
  | S _, EmptyString => EmptyString
  | S k, String _ s' => drop k s'
  end.

(** The first occurrence of a non-empty [sep] in [s]: the text before it
    and the text after it. *)
Fixpoint partition (sep s : string) : option (string * string) :=
  match s with
  | EmptyString => None
  | String c s' =>
      if startswith sep s then Some (EmptyString, drop (String.length sep) s)
      else match partition sep s' with
           | Some (a, b) => Some (String c a, b)
           | None => None
           end
  end.

(** [s.split(sep, 1)] for a non-empty [sep]: one or two pieces. *)
Definition split1 (sep s : string) : list string :=
  match partition sep s with
  | Some (a, b) => [a; b]
  | None => [s]
  end.

(** [s.split(sep)] for a one-character [sep]. *)
Fixpoint split (sep : ascii) (s : string) : list string :=
  match s with
  | EmptyString => [EmptyString]
  | String c s' =>
      if Ascii.eqb c sep then EmptyString :: split sep s'
      else match split sep s' with
           | x :: xs => String c x :: xs
           | [] => [String c EmptyString]
           end
  end.

(** [sep.join(l)] *)
Fixpoint join (sep : string) (l : list string) : string :=
  match l with
  | [] => EmptyString
  | [x] => x
  | x :: xs => x +:+ sep +:+ join sep xs
  end.

(** The scan of [s.replace(old, new)] for a non-empty [old]: occurrences
    are found left to right and do not overlap; [skip] counts the
    characters of the current occurrence still to be passed over. *)
Fixpoint replace_from (old new : string) (skip : nat) (s : string) : string :=
  match s with
  | EmptyString => EmptyString
  | String c s' =>
      match skip with
      | S k => replace_from old new k s'
      | O =>
          if startswith old s
          then new +:+ replace_from old new (String.length old - 1) s'
          else String c (replace_from old new 0 s')
      end
  end.

(** [s.replace("", new)]: [new] before every character and at the end. *)
Fixpoint intersperse (new s : string) : string :=
  match s with
  | EmptyString => new
  | String c s' => new +:+ String c (intersperse new s')
  end.

(** [s.replace(old, new)] *)
Definition replace (old new s : string) : string :=
  match old with
  | EmptyString => intersperse new s
  | String _ _ => replace_from old new 0 s
  end.

(** Truthiness of a string: [bool(s)]. *)
Definition truthy (s : string) : bool :=
  match s with EmptyString => false | String _ _ => true end.

End PyStr.

(** ** [pathlib.PurePosixPath] *)

Module pathlib.
Import PyStr.

(** A parsed path: its root (empty, "/" or "//") and the components
    after the root. *)
Record PurePosixPath := mkPath { root : string; tail : list string }.

(** [posixpath.splitroot], without the (always empty) drive. *)
Definition splitroot (p : string) : string * string :=
  match p with
  | String "/" (String "/" (String "/" _ as r)) => ("/", String "/" r)
  | String "/" (String "/" r) => ("//", r)
  | String "/" r => ("/", r)
  | _ => (EmptyString, p)
  end.

(** A component survives parsing when it is neither empty nor ".". *)
Definition keep_part (x : string) : bool :=
  truthy x && negb (String.eqb x ".").

(** [Path(s)] *)
Definition Path (s : string) : PurePosixPath :=
  let '(r, rel) := splitroot s in
  mkPath r (List.filter keep_part (split "/" rel)).

(** [p / q]: an absolute right operand replaces the left one. *)
Definition truediv (p q : PurePosixPath) : PurePosixPath :=
  if truthy (root q) then q else mkPath (root p) (tail p ++ tail q).

(** [str(p)] *)
Definition str (p : PurePosixPath) : string :=
  let s := root p +:+ join "/" (tail p) in
  if truthy s then s else ".".

(** [p.parent] *)
Definition parent (p : PurePosixPath) : PurePosixPath :=
  match tail p with
  | [] => p
  | _ :: _ => mkPath (root p) (removelast (tail p))
  end.

End pathlib.

(** ** The handler *)

Module Cync.
Import PyStr pathlib.

(** *** Collaborators *)

(** The exceptions the handler can let escape. *)
Inductive exn :=
| ValueError        (* unpacking a list of the wrong length *)
| AssertionError    (* a failed [assert] *)
| GitCommandError.  (* [raise_if_error] after a failed push *)

(** What the handler does to the outside world, in the order it does it.
    An SSH client is identified by the host it is connected to. *)
Inductive action :=
| Connect (domain : string)                 (* [SSHClient.connect] *)
| ExecCommand (domain command : string)     (* [ssh_client.exec_command] *)
| ScpPut (domain src dst : string)          (* [scp_client.put] *)
| GitPush.                                  (* [repo.remote().push(force=True)] *)

(** The local repository as [reset_targets] sees it. *)
Record Repo := mkRepo {
  active_branch : string;
  untracked_files : list string;
  push_ok : bool
}.

(** A watchdog event. *)
Record FileSystemEvent := mkEvent {
  src_path : string;
  dest_path : string;
  is_directory : bool
}.

Definition FileCreatedEvent (p : string) : FileSystemEvent := mkEvent p "" false.
Definition FileDeletedEvent (p : string) : FileSystemEvent := mkEvent p "" false.

(** *** The instance *)

Record handler := mkHandler {
  host_directory : string;
  targets : list string;
  _extensions : list string;
  _ssh_clients : gset string;
  _scp_clients : gset string;
  _dirs_exists_on_targets : gmap string (gset string);
  _current_commit : string;
  _current_branch : string;
  _ignore_everything : bool
}.

Definition set_ssh_clients (v : gset string) (h : handler) : handler :=
  mkHandler (host_directory h) (targets h) (_extensions h) v (_scp_clients h)
    (_dirs_exists_on_targets h) (_current_commit h) (_current_branch h)
    (_ignore_everything h).

Definition set_scp_clients (v : gset string) (h : handler) : handler :=
  mkHandler (host_directory h) (targets h) (_extensions h) (_ssh_clients h) v
    (_dirs_exists_on_targets h) (_current_commit h) (_current_branch h)
    (_ignore_everything h).

Definition set_dirs (v : gmap string (gset string)) (h : handler) : handler :=
  mkHandler (host_directory h) (targets h) (_extensions h) (_ssh_clients h)
    (_scp_clients h) v (_current_commit h) (_current_branch h)
    (_ignore_everything h).

Definition set_current_branch (v : string) (h : handler) : handler :=
  mkHandler (host_directory h) (targets h) (_extensions h) (_ssh_clients h)
    (_scp_clients h) (_dirs_exists_on_targets h) (_current_commit h) v
    (_ignore_everything h).

Definition set_ignore_everything (v : bool) (h : handler) : handler :=
  mkHandler (host_directory h) (targets h) (_extensions h) (_ssh_clients h)
    (_scp_clients h) (_dirs_exists_on_targets h) (_current_commit h)
    (_current_branch h) v.

(** [__init__], with the extension tuple already split. *)
Definition init (host_dir : string) (tgts exts : list string)
    (initial_commit initial_branch : string) : handler :=
  mkHandler host_dir tgts exts ∅ ∅ ∅ initial_commit initial_branch false.

(** *** The monad: instance state, exceptions, and the trace of actions *)

Record res (A : Type) := mkRes {
  outcome : exn + A;
  final : handler;
  trace : list action
}.
Arguments mkRes {A}.
Arguments outcome {A}.
Arguments final {A}.
Arguments trace {A}.

Definition M (A : Type) : Type := handler -> res A.

Definition ret {A} (a : A) : M A := fun h => mkRes (inr a) h [].

Definition bind {A B} (m : M A) (k : A -> M B) : M B := fun h =>
  let r := m h in
  match outcome r with
  | inl e => mkRes (inl e) (final r) (trace r)
  | inr a => let r' := k a (final r) in
             mkRes (outcome r') (final r') (trace r ++ trace r')
  end.

#[export] Instance M_ret : MRet M := @ret.
#[export] Instance M_bind : MBind M := fun A B k m => bind m k.

Definition raise {A} (e : exn) : M A := fun h => mkRes (inl e) h [].
Definition get : M handler := fun h => mkRes (inr h) h [].
Definition modify (f : handler -> handler) : M unit := fun h => mkRes (inr tt) (f h) [].
Definition emit (a : action) : M unit := fun h => mkRes (inr tt) h [a].
Definition lift {A} (r : exn + A) : M A :=
  match r with inl e => raise e | inr a => ret a end.
(** [return] / falling off the end of a block *)
Definition pass : M unit := ret tt.
Definition when (b : bool) (m : M unit) : M unit := if b then m else pass.
Definition assert (b : bool) : M unit := if b then pass else raise AssertionError.

(** [for x in l: body(x)] *)
Fixpoint for_each {A} (l : list A) (body : A -> M unit) : M unit :=
  match l with
  | [] => pass
  | x :: xs => body x ;; for_each xs body
  end.

(** *** Target descriptors *)

(** [a, b = l] *)
Definition unpack2 (l : list string) : exn + (string * string) :=
  match l with
  | [a; b] => inr (a, b)
  | _ => inl ValueError
  end.

Record endpoint := mkEndpoint {
  user : option string;
  domain : string;
  host_parent_dir : string
}.

(** The [if "@" in user_and_domain] block shared by every parse. *)
Definition split_user (user_and_domain hpd : string) : exn + endpoint :=
  if contains "@" user_and_domain then
    match unpack2 (split1 "@" user_and_domain) with
    | inl e => inl e
    | inr (u, d) => inr (mkEndpoint (Some u) d hpd)
    end
  else inr (mkEndpoint None user_and_domain hpd).

(** The parse at the top of the loops of [_ssh_cmd], [ssh_mkdir] and
    [_scp_file]. *)
Definition parse_target (target : string) : exn + endpoint :=
  match
    (if contains ":" target then unpack2 (split1 ":" target)
     else inr ("titan@localhost", target))
  with
  | inl e => inl e
  | inr (user_and_domain, hpd) => split_user user_and_domain hpd
  end.

(** The parse at the top of the loop of [_ssh_rm]: no fallback. *)
Definition parse_target_rm (target : string) : exn + endpoint :=
  match unpack2 (split1 ":" target) with
  | inl e => inl e
  | inr (user_and_domain, hpd) => split_user user_and_domain hpd
  end.

(** [if user:] *)
Definition has_user (u : option string) : bool :=
  match u with Some s => truthy s | None => false end.

Definition user_str (u : option string) : string :=
  match u with Some s => s | None => "None" end.

(** [f'sudo su {user} bash -c "{command}"'] *)
Definition sudo (u : option string) (command : string) : string :=
  "sudo su " +:+ user_str u +:+ " bash -c " +:+ dquote +:+ command +:+ dquote.

(** *** Path mapping *)

(** [str(src_path).replace(self.host_directory, "")] *)
Definition relative_src_path (host_dir src : string) : string :=
  replace host_dir "" src.

(** [str(Path(host_parent_dir) / relative_src_path)] *)
Definition target_path (host_dir hpd src : string) : string :=
  str (truediv (Path hpd) (Path (relative_src_path host_dir src))).

(** *** Connection pool *)

Definition _get_ssh_client (d : string) : M string :=
  h ← get;
  if decide (d ∈ _ssh_clients h) then ret d
  else
    modify (set_ssh_clients ({[d]} ∪ _ssh_clients h)) ;;
    emit (Connect d) ;;
    ret d.

Definition _get_scp_client (d : string) : M string :=
  h ← get;
  if decide (d ∈ _scp_clients h) then ret d
  else
    ssh ← _get_ssh_client d;
    h' ← get;
    modify (set_scp_clients ({[d]} ∪ _scp_clients h')) ;;
    ret d.

Definition exec_command (client command : string) : M unit :=
  emit (ExecCommand client command).

Definition put (client src dst : string) : M unit :=
  emit (ScpPut client src dst).

(** The tail common to [_ssh_cmd], [_ssh_rm] and [ssh_mkdir]: fetch the
    client, run the command under [sudo su] when there is a user, then run
    it plainly. *)
Definition run_on (ep : endpoint) (command : string) : M unit :=
  ssh_client ← _get_ssh_client (domain ep);
  when (has_user (user ep)) (exec_command ssh_client (sudo (user ep) command)) ;;
  exec_command ssh_client command.

(** *** Remote commands *)

(** The loop of [_ssh_cmd]; [command] is reassigned in its body. *)
Fixpoint _ssh_cmd_loop (ts : list string) (command : string) : M unit :=
  match ts with
  | [] => pass
  | target :: ts' =>
      ep ← lift (parse_target target);
      let command := "cd " +:+ host_parent_dir ep +:+ " && " +:+ command in
      run_on ep command ;;
      _ssh_cmd_loop ts' command
  end.

Definition _ssh_cmd (command : string) : M unit :=
  h ← get; _ssh_cmd_loop (targets h) command.

Definition _ssh_rm (event : FileSystemEvent) : M unit :=
  let recursion_flag := if is_directory event then "r" else "" in
  h ← get;
  for_each (targets h) (fun target =>
    ep ← lift (parse_target_rm target);
    let target_path := target_path (host_directory h) (host_parent_dir ep) (src_path event) in
    run_on ep ("rm -" +:+ recursion_flag +:+ "f " +:+ target_path)).

(** [ssh_mkdir] takes an event or a plain string. *)
Definition ssh_mkdir (event : FileSystemEvent + string) : M unit :=
  assert (match event with inr _ => true | inl e => is_directory e end) ;;
  let src_path := match event with inr s => s | inl e => src_path e end in
  h ← get;
  for_each (targets h) (fun target =>
    ep ← lift (parse_target target);
    let target_path := target_path (host_directory h) (host_parent_dir ep) src_path in
    run_on ep ("mkdir -p " +:+ target_path)).

(** *** Directory presence cache *)

(** [self._dirs_exists_on_targets[domain]]: reading a [defaultdict]
    creates the missing entry. *)
Definition dirs_of (d : string) : M (gset string) :=
  h ← get;
  match _dirs_exists_on_targets h !! d with
  | Some s => ret s
  | None => modify (set_dirs (<[d := ∅]> (_dirs_exists_on_targets h))) ;; ret ∅
  end.

(** [self._dirs_exists_on_targets[domain].add(p)] *)
Definition dirs_add (d p : string) : M unit :=
  s ← dirs_of d;
  h ← get;
  modify (set_dirs (<[d := {[p]} ∪ s]> (_dirs_exists_on_targets h))).

(** The guard of the marking loop:
    [str(relative).replace(".", "").replace("/", "")]. *)
Definition has_name (relative : PurePosixPath) : bool :=
  truthy (replace "/" "" (replace "." "" (str relative))).

(** The marking loop; [fuel] bounds the number of iterations. *)
Fixpoint mark_loop (fuel : nat) (d : string) (base relative : PurePosixPath) : M unit :=
  match fuel with
  | O => pass
  | S n =>
      if has_name relative then
        dirs_add d (str (truediv base relative)) ;;
        mark_loop n d base (parent relative)
      else pass
  end.

Definition _create_parent_dir_if_necessary (d : string) (base relative : PurePosixPath)
  : M unit :=
  let target_path := truediv base relative in
  s ← dirs_of d;
  if decide (str target_path ∈ s) then pass
  else
    ssh_mkdir (inr (str relative)) ;;
    mark_loop (S (List.length (tail relative))) d base relative.

(** *** Upload *)

Definition _scp_file (event : FileSystemEvent) : M unit :=
  assert (negb (is_directory event)) ;;
  h ← get;
  for_each (targets h) (fun target =>
    ep ← lift (parse_target target);
    let relative_src_path := relative_src_path (host_directory h) (src_path event) in
    let target_path := target_path (host_directory h) (host_parent_dir ep) (src_path event) in
    scp_client ← _get_scp_client (domain ep);
    _create_parent_dir_if_necessary (domain ep) (Path (host_parent_dir ep))
      (parent (Path relative_src_path)) ;;
    when (has_user (user ep))
      (c ← _get_ssh_client (domain ep);
       exec_command c (sudo (user ep) ("chmod g+w " +:+ target_path))) ;;
    put scp_client (src_path event) target_path ;;
    when (endswith ".sh" target_path)
      (c ← _get_ssh_client (domain ep);
       exec_command c ("chmod +x " +:+ target_path))).

(** *** Branch reconciliation *)

Definition reset_command (current_branch : string) : string :=
  join " && "
    [ "git fetch --all";
      "git stash";
      "git checkout " +:+ current_branch;
      "git reset --hard origin/" +:+ current_branch;
      "git clean -f" ].

Definition reset_targets (repo : Repo) : M unit :=
  h ← get;
  let current_branch := active_branch repo in
  if negb (String.eqb current_branch (_current_branch h)) then
    modify (set_ignore_everything true) ;;
    emit GitPush ;;
    (if push_ok repo then pass else raise GitCommandError) ;;
    _ssh_cmd (reset_command current_branch) ;;
    for_each (untracked_files repo) (fun untracked_file =>
      _scp_file (FileCreatedEvent untracked_file)) ;;
    modify (set_ignore_everything false) ;;
    modify (set_current_branch current_branch)
  else pass.

(** *** Event handlers *)

Definition _on_git_event (event : FileSystemEvent) : M unit := pass.

Definition _is_git_path (event : FileSystemEvent) : bool :=
  contains ".git" (src_path event).

Definition _is_bad_path (h : handler) (event : FileSystemEvent) : bool :=
  let is_good_path := endswith_any (_extensions h) (src_path event) in
  negb is_good_path
  || (contains ".pyc" (src_path event)
      || contains ".env/" (src_path event)
      || contains "__pycache__" (src_path event)
      || contains ".egg" (src_path event)).

(** The two tests that open every handler; [true] means the event is
    skipped. *)
Definition skipped (event : FileSystemEvent) : M bool :=
  when (_is_git_path event) (_on_git_event event) ;;
  h ← get;
  ret (_is_bad_path h event || _ignore_everything h).

Definition on_created (event : FileSystemEvent) : M unit :=
  skip ← skipped event;
  if (skip : bool) then pass
  else if is_directory event then ssh_mkdir (inl event)
  else _scp_file event.

Definition on_deleted (event : FileSystemEvent) : M unit :=
  skip ← skipped event;
  if (skip : bool) then pass
  else _ssh_rm event.

Definition on_modified (event : FileSystemEvent) : M unit :=
  skip ← skipped event;
  if (skip : bool) then pass
  else if negb (is_directory event) then _scp_file event
  else pass.

Definition on_moved (event : FileSystemEvent) : M unit :=
  skip ← skipped event;
  if (skip : bool) then pass
  else
    on_deleted (FileDeletedEvent (src_path event)) ;;
    on_created (FileCreatedEvent (dest_path event)).

End Cync.

(** ** Vocabulary of the statements *)

Module Spec.
Import PyStr pathlib Cync.

(** [wp m Q h]: run from [h], [m] returns normally, and its result, final
    state and trace satisfy [Q]. *)
Definition wp {A} (m : M A) (Q : A -> handler -> list action -> Prop)
    (h : handler) : Prop :=
  match outcome (m h) with
  | inr a => Q a (final (m h)) (trace (m h))
  | inl _ => False
  end.

(** Partial correctness on the final state: what holds whenever [m]
    returns normally. *)
Definition returns_in {A} (m : M A) (P : handler -> Prop) : Prop :=
  forall h a, outcome (m h) = inr a -> P (final (m h)).

(** [m] takes every state to one related to it by [R], whether it returns
    or raises. *)
Definition preserves {A} (R : handler -> handler -> Prop) (m : M A) : Prop :=
  forall h, R h (final (m h)).

(** The endpoint a descriptor stands for in [_ssh_cmd], [ssh_mkdir] and
    [_scp_file]. *)
Definition endpoint_of (target : string) : endpoint :=
  match parse_target target with
  | inr ep => ep
  | inl _ => mkEndpoint None "" ""
  end.

(** Everything but the connection pool and the presence cache. *)
Definition same_config (h h' : handler) : Prop :=
  host_directory h' = host_directory h /\
  targets h' = targets h /\
  _extensions h' = _extensions h /\
  _current_commit h' = _current_commit h /\
  _current_branch h' = _current_branch h /\
  _ignore_everything h' = _ignore_everything h.

(** Everything but the connection pool. *)
Definition frame (h h' : handler) : Prop :=
  same_config h h' /\ _dirs_exists_on_targets h' = _dirs_exists_on_targets h.

(** The directories marked present for a host. *)
Definition cached (h : handler) (d : string) : gset string :=
  default ∅ (_dirs_exists_on_targets h !! d).

(** The presence cache of every host has only grown. *)
Definition cache_grows (h h' : handler) : Prop :=
  forall d, cached h d ⊆ cached h' d.

Definition is_connect (a : action) : bool :=
  match a with Connect _ => true | _ => false end.

(** What the targets are asked to do: the trace without the session
    set-up. *)
Definition commands (t : list action) : list action :=
  List.filter (fun a => negb (is_connect a)) t.

(** What [run_on] asks of a target. *)
Definition run_on_commands (ep : endpoint) (command : string) : list action :=
  (if has_user (user ep) then [ExecCommand (domain ep) (sudo (user ep) command)] else [])
  ++ [ExecCommand (domain ep) command].

(** What [ssh_mkdir] asks of the targets for [src]. *)
Definition mkdir_commands (h : handler) (src : string) : list action :=
  concat (map (fun target =>
                 let ep := endpoint_of target in
                 run_on_commands ep
                   ("mkdir -p " +:+ target_path (host_directory h) (host_parent_dir ep) src))
            (targets h)).

(** [s] without the character [c]. *)
Fixpoint remove_char (c : ascii) (s : string) : string :=
  match s with
  | EmptyString => EmptyString
  | String x s' => if Ascii.eqb c x then remove_char c s' else String x (remove_char c s')
  end.

(** [s] has a character other than "." and "/". *)
Fixpoint name_chars (s : string) : bool :=
  match s with
  | EmptyString => false
  | String x s' => negb (Ascii.eqb "." x) && negb (Ascii.eqb "/" x) || name_chars s'
  end.

(** [a] is [p] or one of [p.parents]. *)
Definition ancestor_or_self (a p : PurePosixPath) : Prop :=
  root a = root p /\ tail a `prefix_of` tail p.


(** What [_ssh_cmd] asks of the targets: [command] grows by one [cd] per
    target as the loop advances. *)
Fixpoint ssh_cmd_commands (ts : list string) (command : string) : list action :=
  match ts with
  | [] => []
  | target :: ts' =>
      let ep := endpoint_of target in
      let command := "cd " +:+ host_parent_dir ep +:+ " && " +:+ command in
      run_on_commands ep command ++ ssh_cmd_commands ts' command
  end.








(** The reading of "after [ensure] succeeds, a later [ensure] for the
    same directory or an ancestor under the same host issues no creation
    call", with the later call made right after the first. *)
Definition ensure_claim (h : handler) (d : string) (base relative a : PurePosixPath)
  : Prop :=
  let r := _create_parent_dir_if_necessary d base relative h in
  outcome r = inr tt ->
  ancestor_or_self a relative ->
  trace (_create_parent_dir_if_necessary d base a (final r)) = [].




(** The mapping as the specification words it: the local path
    relativized against the watch root, joined onto the remote root. *)
Definition spec_relativize (local_path watch_root : string) : option string :=
  if startswith watch_root local_path
  then Some (drop (String.length watch_root) local_path)
  else None.

Definition spec_remote_path (watch_root remote_root local_path : string)
  : option string :=
  match spec_relativize local_path watch_root with
  | Some rel => Some (str (truediv (Path remote_root) (Path rel)))
  | None => None
  end.

(** An action that reaches a target, as opposed to the local push. *)
Definition is_remote (a : action) : bool :=
  match a with GitPush => false | _ => true end.

(** The reading of "a failed push touches no target and ends with the
    suppression flag lowered", at one state and repository. *)
Definition push_failure_claim (h : handler) (repo : Repo) : Prop :=
  active_branch repo <> _current_branch h ->
  push_ok repo = false ->
  List.filter is_remote (trace (reset_targets repo h)) = []
  /\ _ignore_everything (final (reset_targets repo h)) = false.

End Spec.

(** ** [str.strip] *)

Module PyStrip.
Import PyStr.

(** [c.isspace()] for a character below 256. *)
Definition is_space (c : ascii) : bool :=
  let n := nat_of_ascii c in
  (9 <=? n) && (n <=? 13) || (28 <=? n) && (n <=? 32) || (n =? 133) || (n =? 160).

(** [s.lstrip()] *)
Fixpoint lstrip (s : string) : string :=
  match s with
  | EmptyString => EmptyString
  | String c s' => if is_space c then lstrip s' else s
  end.

(** [s.rstrip()] *)
Fixpoint rstrip (s : string) : string :=
  match s with
  | EmptyString => EmptyString
  | String c s' =>
      match rstrip s' with
      | EmptyString => if is_space c then EmptyString else String c EmptyString
      | r => String c r
      end
  end.

(** [s.strip()] *)
Definition strip (s : string) : string := rstrip (lstrip s).

End PyStrip.

(** ** Construction and start-up ([cync/__main__.py]) *)

Module Main.
Import PyStr PyStrip pathlib Cync.

(** [tuple((_.strip() for _ in extensions.split(",") if _))] *)
Definition parse_extensions (extensions : string) : list string :=
  map strip (List.filter truthy (split "," extensions)).

(** [ScpGitEventHandler.__init__] *)
Definition __init__ (host_directory : string) (targets : list string)
    (extensions initial_commit initial_branch : string) : handler :=
  mkHandler host_directory targets (parse_extensions extensions) ∅ ∅ ∅
    initial_commit initial_branch false.

(** The shortcut "c" stands for a common target. *)
Definition expand_targets (targets : list string) : list string :=
  map (fun t =>
         if String.eqb t "c" then "computelab:/home/scratch.npengra_sw/computelab/" else t)
    targets.

(** "." is the current directory, and the watch root ends with "/". *)
Definition normalize_path (cwd path : string) : string :=
  let path := if String.eqb path "." then cwd else path in
  if negb (endswith "/" path) then path +:+ "/" else path.

(** How [cync] can end before the observer is started: [targets[0]] on an
    empty list, or whatever the handler did. *)
Inductive startup :=
| IndexError
| Started (r : res unit).

(** [cync], up to [observer.start()]; [cwd] is [os.getcwd()] and [repo] the
    repository found at the watch root. *)
Definition cync (cwd : string) (repo : Repo) (path : string) (targets : list string)
    (extensions : string) (create_if_missing reset_targets_opt : bool) : startup :=
  let targets := expand_targets targets in
  let path := normalize_path cwd path in
  let event_handler := __init__ path targets extensions "" "" in
  match
    (if create_if_missing then
       match targets with
       | [] => None
       | t0 :: _ => Some (ssh_mkdir (inr (List.last (split1 ":" t0) "")))
       end
     else Some pass)
  with
  | None => IndexError
  | Some create => Started ((create ;; when reset_targets_opt (reset_targets repo)) event_handler)
  end.

End Main.

(** ** Vocabulary of the further properties *)

Module Laws.
Import PyStr pathlib Cync Spec.

(** [m] relates every state to its trace and final state by [R], whether
    it returns or raises. *)
Definition traced {A} (R : handler -> list action -> handler -> Prop) (m : M A) : Prop :=
  forall h, R h (trace (m h)) (final (m h)).

(** The hosts a trace opens a session to, in order. *)
Definition connects (t : list action) : list string :=
  flat_map (fun a => match a with Connect d => [d] | _ => [] end) t.

(** The connection pool over a run: the sessions afterwards are those
    before plus those opened, each host is opened once, and none that was
    already there; the transfer channels only grow. *)
Definition pool_step (h : handler) (t : list action) (h' : handler) : Prop :=
  _ssh_clients h' = _ssh_clients h ∪ list_to_set (connects t)
  /\ NoDup (connects t)
  /\ (forall d, d ∈ connects t -> d ∉ _ssh_clients h)
  /\ _scp_clients h ⊆ _scp_clients h'
  /\ (_scp_clients h ⊆ _ssh_clients h -> _scp_clients h' ⊆ _ssh_clients h').




(** The presence cache, as a map, through the methods that never read
    it. *)
Definition same_dirs (h h' : handler) : Prop :=
  _dirs_exists_on_targets h' = _dirs_exists_on_targets h.

(** The fixed blacklist of [_is_bad_path]. *)
Definition blacklisted (p : string) : bool :=
  contains ".pyc" p || contains ".env/" p || contains "__pycache__" p || contains ".egg" p.

(** The body of the loop of [_scp_file], for the instance [h] read before
    the loop. *)
Definition scp_body (h : handler) (event : FileSystemEvent) (target : string) : M unit :=
  ep ← lift (parse_target target);
  let relative_src_path := relative_src_path (host_directory h) (src_path event) in
  let target_path := target_path (host_directory h) (host_parent_dir ep) (src_path event) in
  scp_client ← _get_scp_client (domain ep);
  _create_parent_dir_if_necessary (domain ep) (Path (host_parent_dir ep))
    (parent (Path relative_src_path)) ;;
  when (has_user (user ep))
    (c ← _get_ssh_client (domain ep);
     exec_command c (sudo (user ep) ("chmod g+w " +:+ target_path))) ;;
  put scp_client (src_path event) target_path ;;
  when (endswith ".sh" target_path)
    (c ← _get_ssh_client (domain ep);
     exec_command c ("chmod +x " +:+ target_path)).




End Laws.

(** ** Reasoning about handler code *)

Module Hoare.
Import Cync Spec.

Lemma wp_run {A} (m : M A) Q h :
  wp m Q h <-> exists a, outcome (m h) = inr a /\ Q a (final (m h)) (trace (m h)).
Proof.
  unfold wp. split.
  - destruct (outcome (m h)) as [e|a]; [tauto | eauto].
  - intros (a & -> & HQ). exact HQ.
Qed.

Lemma wp_mono {A} (m : M A) (Q Q' : A -> handler -> list action -> Prop) h :
  (forall a h' t, Q a h' t -> Q' a h' t) -> wp m Q h -> wp m Q' h.
Proof. unfold wp. destruct (outcome (m h)); auto. Qed.

Lemma wp_and {A} (m : M A) (Q Q' : A -> handler -> list action -> Prop) h :
  wp m Q h -> wp m Q' h -> wp m (fun a h' t => Q a h' t /\ Q' a h' t) h.
Proof. unfold wp. destruct (outcome (m h)); auto. Qed.

Lemma wp_ret {A} (a : A) (Q : A -> handler -> list action -> Prop) h :
  Q a h [] -> wp (mret a) Q h.
Proof. auto. Qed.

Lemma wp_pass (Q : unit -> handler -> list action -> Prop) h :
  Q tt h [] -> wp pass Q h.
Proof. auto. Qed.

Lemma wp_bind {A B} (m : M A) (k : A -> M B) Q h :
  wp m (fun a h1 t1 => wp (k a) (fun b h2 t2 => Q b h2 (t1 ++ t2)) h1) h ->
  wp (m ≫= k) Q h.
Proof.
  unfold wp, mbind, M_bind, bind. simpl.
  destruct (outcome (m h)) as [e|a]; [tauto|]. simpl.
  destruct (outcome (k a (final (m h)))); auto.
Qed.

Lemma wp_get (Q : handler -> handler -> list action -> Prop) h :
  Q h h [] -> wp get Q h.
Proof. auto. Qed.

Lemma wp_modify f (Q : unit -> handler -> list action -> Prop) h :
  Q tt (f h) [] -> wp (modify f) Q h.
Proof. auto. Qed.

Lemma wp_emit a (Q : unit -> handler -> list action -> Prop) h :
  Q tt h [a] -> wp (emit a) Q h.
Proof. auto. Qed.

Lemma wp_lift {A} (a : A) (Q : A -> handler -> list action -> Prop) h :
  Q a h [] -> wp (lift (inr a)) Q h.
Proof. auto. Qed.

Lemma wp_when (b : bool) m (Q : unit -> handler -> list action -> Prop) h :
  (b = true -> wp m Q h) -> (b = false -> Q tt h []) -> wp (when b m) Q h.
Proof. intros H1 H2. destruct b; simpl; [apply H1 | apply H2]; reflexivity. Qed.

Lemma wp_assert (Q : unit -> handler -> list action -> Prop) h :
  Q tt h [] -> wp (assert true) Q h.
Proof. auto. Qed.

(** One step of symbolic execution on the head of the program. *)
Ltac wp_head :=
  lazymatch goal with
  | |- wp (mbind _ _) _ _ => apply wp_bind
  | |- wp get _ _ => apply wp_get
  | |- wp (modify _) _ _ => apply wp_modify
  | |- wp (emit _) _ _ => apply wp_emit
  | |- wp pass _ _ => apply wp_pass
  | |- wp (mret _) _ _ => apply wp_ret
  | |- wp (ret _) _ _ => apply wp_ret
  | |- wp (lift (inr _)) _ _ => apply wp_lift
  | |- wp (assert true) _ _ => apply wp_assert
  end.

(** The loop rule: an invariant [I] on the state, and a monoid
    homomorphism [f] out of traces whose value on each iteration is known
    in advance. *)
Lemma wp_for_each {A B} (f : list action -> list B) (g : A -> list B)
    (I : handler -> Prop) (l : list A) (body : A -> M unit) h :
  f [] = [] ->
  (forall t1 t2, f (t1 ++ t2) = f t1 ++ f t2) ->
  (forall x h1, x ∈ l -> I h1 -> wp (body x) (fun _ h2 t => I h2 /\ f t = g x) h1) ->
  I h ->
  wp (for_each l body) (fun _ h' t => I h' /\ f t = concat (map g l)) h.
Proof.
  intros Hnil Happ. revert h.
  induction l as [|x l IH]; intros h Hbody HI.
  - simpl. apply wp_pass. auto.
  - simpl. apply wp_bind.
    eapply wp_mono; [|apply (Hbody x h); [left|exact HI]].
    intros [] h1 t1 [HI1 Ht1].
    eapply wp_mono; [|apply IH; [|exact HI1]].
    + simpl. intros [] h2 t2 [HI2 Ht2]. split; [exact HI2|].
      rewrite Happ, Ht1, Ht2. reflexivity.
    + intros y h' Hy. apply Hbody. right. exact Hy.
Qed.



Lemma wp_outcome (m : M unit) Q h : wp m Q h -> outcome (m h) = inr tt.
Proof. unfold wp. destruct (outcome (m h)) as [e|[]]; [tauto | reflexivity]. Qed.

Lemma wp_post {A} (m : M A) Q h a :
  wp m Q h -> outcome (m h) = inr a -> Q a (final (m h)) (trace (m h)).
Proof. unfold wp. intros H E. rewrite E in H. exact H. Qed.


(** A step that returns at once without doing anything. *)
Lemma bind_run {A B} (m : M A) (k : A -> M B) a h :
  m h = mkRes (inr a) h [] -> (m ≫= k) h = k a h.
Proof.
  intros E. unfold mbind, M_bind, bind. rewrite E. simpl.
  destruct (k a h). reflexivity.
Qed.


Lemma returns_in_bind {A B} (m : M A) (k : A -> M B) P :
  (forall a, returns_in (k a) P) -> returns_in (m ≫= k) P.
Proof.
  intros Hk h b. unfold mbind, M_bind, bind. simpl.
  destruct (outcome (m h)) as [e|a]; simpl; [discriminate|].
  apply Hk.
Qed.

Lemma returns_in_modify f (P : handler -> Prop) :
  (forall h, P (f h)) -> returns_in (modify f) P.
Proof. intros H h a _. apply H. Qed.

Lemma get_bind {A} (k : handler -> M A) h : (get ≫= k) h = k h h.
Proof. unfold mbind, M_bind, bind, get. simpl. destruct (k h h). reflexivity. Qed.

End Hoare.

(** ** Facts about the string helpers *)

Module PyStrFacts.
Import PyStr.

Lemma contains_partition_some sep s :
  sep <> EmptyString -> contains sep s = true ->
  exists a b, partition sep s = Some (a, b).
Proof.
  intros Hsep. induction s as [|c s IH]; simpl.
  - destruct sep; [congruence | discriminate].
  - intros H. destruct sep as [|a sep]; [congruence|].
    destruct (startswith (String a sep) (String c s)) eqn:E.
    + eauto.
    + simpl in H. destruct (IH H) as (x & y & ->). eauto.
Qed.



Lemma split1_present sep s :
  sep <> EmptyString -> contains sep s = true -> exists a b, split1 sep s = [a; b].
Proof.
  intros Hsep H. unfold split1.
  destruct (contains_partition_some _ _ Hsep H) as (a & b & ->). eauto.
Qed.

End PyStrFacts.

(** ** Target descriptors *)

Section TargetResolver.
Import PyStr PyStrFacts Cync Spec.

Lemma split_user_total uad hpd : exists ep, split_user uad hpd = inr ep.
Proof.
  unfold split_user. destruct (contains "@" uad) eqn:E; [|eauto].
  destruct (split1_present "@" uad) as (a & b & ->); [discriminate|exact E|].
  simpl. eauto.
Qed.

(** The parse with the fallback never raises. *)
Lemma parse_target_total target : exists ep, parse_target target = inr ep.
Proof.
  unfold parse_target. destruct (contains ":" target) eqn:E.
  - destruct (split1_present ":" target) as (a & b & ->); [discriminate|exact E|].
    simpl. apply split_user_total.
  - apply split_user_total.
Qed.

Lemma parse_target_endpoint_of target : parse_target target = inr (endpoint_of target).
Proof.
  unfold endpoint_of. destruct (parse_target_total target) as [ep ->]. reflexivity.
Qed.


(** With a separator the delete path parses like the others. *)
Lemma parse_target_rm_separator target :
  contains ":" target = true -> parse_target_rm target = parse_target target.
Proof. intros H. unfold parse_target, parse_target_rm. rewrite H. reflexivity. Qed.


End TargetResolver.

(** ** What each method does to the state and to the targets *)

Module Effects.
Import PyStr pathlib Cync Spec Hoare PyStrFacts.

Lemma same_config_refl h : same_config h h.
Proof. unfold same_config. tauto. Qed.

Lemma same_config_trans h1 h2 h3 :
  same_config h1 h2 -> same_config h2 h3 -> same_config h1 h3.
Proof. unfold same_config. intuition congruence. Qed.

Lemma frame_refl h : frame h h.
Proof. split; [apply same_config_refl | reflexivity]. Qed.

Lemma frame_trans h1 h2 h3 : frame h1 h2 -> frame h2 h3 -> frame h1 h3.
Proof.
  intros [C1 D1] [C2 D2]. split; [eapply same_config_trans; eauto | congruence].
Qed.

Lemma frame_set_ssh_clients v h : frame h (set_ssh_clients v h).
Proof. repeat split. Qed.

Lemma frame_set_scp_clients v h : frame h (set_scp_clients v h).
Proof. repeat split. Qed.

Lemma cache_grows_refl h : cache_grows h h.
Proof. intros d. reflexivity. Qed.

Lemma cache_grows_trans h1 h2 h3 :
  cache_grows h1 h2 -> cache_grows h2 h3 -> cache_grows h1 h3.
Proof. intros H1 H2 d. etrans; [apply H1 | apply H2]. Qed.

Lemma frame_cache_grows h h' : frame h h' -> cache_grows h h'.
Proof. intros [_ D] d. unfold cached. rewrite D. reflexivity. Qed.

Lemma commands_app t1 t2 : commands (t1 ++ t2) = commands t1 ++ commands t2.
Proof. apply List.filter_app. Qed.

Lemma _get_ssh_client_spec d h :
  wp (_get_ssh_client d) (fun c h' t => c = d /\ frame h h' /\ commands t = []) h.
Proof.
  unfold _get_ssh_client. wp_head. wp_head.
  destruct (decide (d ∈ _ssh_clients h)).
  - wp_head. auto using frame_refl.
  - repeat wp_head. simpl. auto using frame_set_ssh_clients.
Qed.


Lemma run_on_spec ep command h :
  wp (run_on ep command)
     (fun _ h' t => frame h h' /\ commands t = run_on_commands ep command) h.
Proof.
  unfold run_on, exec_command, run_on_commands. wp_head.
  eapply wp_mono; [|apply _get_ssh_client_spec].
  intros c h1 t1 (-> & F1 & T1). wp_head.
  destruct (has_user (user ep)); simpl.
  - repeat wp_head. rewrite !commands_app, T1. auto.
  - repeat wp_head. rewrite !commands_app, T1. auto.
Qed.

(** What [ssh_mkdir] asks of a target. *)
Lemma ssh_mkdir_spec event h :
  match event with inr _ => True | inl e => is_directory e = true end ->
  let src := match event with inr s => s | inl e => src_path e end in
  wp (ssh_mkdir event)
     (fun _ h' t =>
        frame h h' /\
        commands t = mkdir_commands h src) h.
Proof.
  intros Hdir src. unfold ssh_mkdir. wp_head.
  replace (match event with inr _ => true | inl e => is_directory e end) with true
    by (destruct event; auto).
  wp_head. wp_head. wp_head.
  apply (wp_for_each commands _ (frame h)); auto using commands_app, frame_refl.
  intros target h1 _ F1. wp_head. rewrite parse_target_endpoint_of. wp_head.
  eapply wp_mono; [|apply run_on_spec].
  intros [] h2 t2 [F2 T2]. simpl. split; [eapply frame_trans; eauto | exact T2].
Qed.


Lemma _ssh_cmd_loop_spec ts command h :
  wp (_ssh_cmd_loop ts command)
     (fun _ h' t => frame h h' /\ commands t = ssh_cmd_commands ts command) h.
Proof.
  revert command h. induction ts as [|target ts IH]; intros command h; simpl.
  - wp_head. auto using frame_refl.
  - wp_head. rewrite parse_target_endpoint_of. wp_head. wp_head.
    eapply wp_mono; [|apply run_on_spec].
    intros [] h1 t1 [F1 T1]. eapply wp_mono; [|apply IH].
    intros [] h2 t2 [F2 T2]. simpl. split; [eapply frame_trans; eauto|].
    rewrite commands_app, T1, T2. reflexivity.
Qed.

Lemma _ssh_cmd_spec command h :
  wp (_ssh_cmd command)
     (fun _ h' t => frame h h' /\ commands t = ssh_cmd_commands (targets h) command) h.
Proof. unfold _ssh_cmd. wp_head. wp_head. apply _ssh_cmd_loop_spec. Qed.







End Effects.

(** ** The presence cache *)

Module Presence.
Import PyStr pathlib Cync Spec Hoare PyStrFacts Effects.

#[local] Arguments Ascii.eqb : simpl never.

(** *** The guard of the marking loop *)

Lemma replace_char c s : replace (String c EmptyString) "" s = remove_char c s.
Proof.
  unfold replace. induction s as [|x s IH]; simpl; [reflexivity|].
  destruct (Ascii.eqb c x); simpl; rewrite IH; reflexivity.
Qed.

Lemma truthy_remove_chars s :
  truthy (remove_char "/" (remove_char "." s)) = name_chars s.
Proof.
  induction s as [|x s IH]; simpl; [reflexivity|].
  destruct (Ascii.eqb "." x); simpl; [exact IH|].
  destruct (Ascii.eqb "/" x); simpl; [exact IH | reflexivity].
Qed.

Lemma name_chars_app a b : name_chars (a +:+ b) = name_chars a || name_chars b.
Proof.
  induction a as [|x a IH]; simpl; [reflexivity|].
  rewrite IH, orb_assoc. reflexivity.
Qed.

Lemma name_chars_join l : name_chars (join "/" l) = existsb name_chars l.
Proof.
  induction l as [|x l IH]; [reflexivity|].
  destruct l as [|y l].
  - simpl. rewrite orb_false_r. reflexivity.
  - change (join "/" (x :: y :: l)) with (x +:+ "/" +:+ join "/" (y :: l)).
    rewrite !name_chars_app, IH. reflexivity.
Qed.

Lemma truthy_name_chars s : truthy s = false -> name_chars s = false.
Proof. destruct s; [reflexivity | discriminate]. Qed.

Lemma has_name_parts p :
  has_name p = name_chars (root p) || existsb name_chars (tail p).
Proof.
  unfold has_name. rewrite !replace_char, truthy_remove_chars. unfold str.
  destruct (truthy (root p +:+ join "/" (tail p))) eqn:E.
  - rewrite name_chars_app, name_chars_join. reflexivity.
  - apply truthy_name_chars in E. rewrite name_chars_app, name_chars_join in E.
    rewrite E. reflexivity.
Qed.

(** A path with a name in it keeps it in every longer path. *)
Lemma has_name_ancestor a p :
  ancestor_or_self a p -> has_name a = true -> has_name p = true.
Proof.
  intros [Hr [k Hk]]. rewrite !has_name_parts, Hr, Hk, existsb_app.
  intros H. rewrite orb_assoc, H. reflexivity.
Qed.

(** The loop stops at a path without components: the fuel
    [S (length (tail relative))] is never what ends it. *)
Lemma has_name_no_tail p :
  tail p = [] -> name_chars (root p) = false -> has_name p = false.
Proof. intros Ht Hr. rewrite has_name_parts, Ht, Hr. reflexivity. Qed.

Lemma root_parent p : root (parent p) = root p.
Proof. unfold parent. destruct (tail p); reflexivity. Qed.

Lemma tail_parent p : tail (parent p) = removelast (tail p).
Proof. unfold parent. destruct (tail p) eqn:E; [rewrite E|]; reflexivity. Qed.

Lemma ancestor_parent a p :
  ancestor_or_self a p -> tail a <> tail p -> ancestor_or_self a (parent p).
Proof.
  intros [Hr [k Hk]] Hne. split; [rewrite root_parent; exact Hr|].
  rewrite tail_parent. exists (removelast k). rewrite Hk.
  apply removelast_app. intros ->. apply Hne. rewrite Hk, app_nil_r. reflexivity.
Qed.

Lemma ancestor_self_eq a p : ancestor_or_self a p -> tail a = tail p -> a = p.
Proof.
  destruct a, p. unfold ancestor_or_self. simpl. intros [Hr _] Ht. congruence.
Qed.

Lemma parent_shorter p :
  tail p <> [] -> List.length (tail (parent p)) < List.length (tail p).
Proof.
  intros Hne. rewrite tail_parent.
  rewrite (app_removelast_last "" Hne) at 2. rewrite length_app. simpl. lia.
Qed.

(** *** Reading and extending the cache *)

Lemma same_config_set_dirs v h : same_config h (set_dirs v h).
Proof. repeat split. Qed.

Lemma cached_insert d s h :
  cached (set_dirs (<[d := s]> (_dirs_exists_on_targets h)) h) d = s.
Proof. unfold cached. simpl. rewrite lookup_insert_eq. reflexivity. Qed.

Lemma cached_insert_ne d d' s h :
  d <> d' -> cached (set_dirs (<[d := s]> (_dirs_exists_on_targets h)) h) d' = cached h d'.
Proof. intros Hne. unfold cached. simpl. rewrite lookup_insert_ne by exact Hne. reflexivity. Qed.

(** A hit on an existing entry leaves the instance as it is. *)
Lemma dirs_of_present d s h :
  _dirs_exists_on_targets h !! d = Some s -> dirs_of d h = mkRes (inr s) h [].
Proof.
  intros H. unfold dirs_of, mbind, M_bind, bind, get. simpl. rewrite H. reflexivity.
Qed.

Lemma dirs_of_spec d h :
  wp (dirs_of d)
     (fun s h' t =>
        s = cached h d /\ same_config h h' /\ (forall d', cached h' d' = cached h d') /\ t = []) h.
Proof.
  unfold dirs_of. wp_head. wp_head. unfold cached at 1.
  destruct (_dirs_exists_on_targets h !! d) as [s|] eqn:E.
  - wp_head. auto using same_config_refl.
  - repeat wp_head. simpl. repeat split.
    intros d'. destruct (decide (d = d')) as [<-|Hne].
    + rewrite cached_insert. unfold cached. rewrite E. reflexivity.
    + apply cached_insert_ne. exact Hne.
Qed.

Lemma dirs_add_spec d p h :
  wp (dirs_add d p)
     (fun _ h' t =>
        same_config h h' /\ cache_grows h h' /\ p ∈ cached h' d /\ t = []) h.
Proof.
  unfold dirs_add. wp_head. eapply wp_mono; [|apply dirs_of_spec].
  intros s h1 t1 (-> & C1 & D1 & ->). repeat wp_head. simpl.
  split; [eapply same_config_trans; [exact C1 | apply same_config_set_dirs]|].
  split; [|split; [|reflexivity]].
  - intros d'. destruct (decide (d = d')) as [<-|Hne].
    + rewrite cached_insert. apply union_subseteq_r.
    + rewrite cached_insert_ne by exact Hne. rewrite D1. reflexivity.
  - rewrite cached_insert. apply elem_of_union_l, elem_of_singleton. reflexivity.
Qed.

(** *** The marking walk *)

(** The walk asks nothing of the targets, only extends the cache, and
    marks every named ancestor of [relative] when it has a step of fuel
    per component to spare. *)
Lemma mark_loop_spec n d base relative h :
  wp (mark_loop n d base relative)
     (fun _ h' t =>
        same_config h h' /\ cache_grows h h' /\ t = [] /\
        (List.length (tail relative) < n ->
         forall a, ancestor_or_self a relative -> has_name a = true ->
                   str (truediv base a) ∈ cached h' d)) h.
Proof.
  revert relative h. induction n as [|n IH]; intros relative h.
  - simpl. wp_head. repeat split; auto using same_config_refl, cache_grows_refl. lia.
  - simpl. destruct (has_name relative) eqn:Hn.
    + wp_head. eapply wp_mono; [|apply dirs_add_spec].
      intros [] h1 t1 (C1 & G1 & M1 & ->).
      eapply wp_mono; [|apply IH].
      intros [] h2 t2 (C2 & G2 & -> & M2). simpl.
      split; [eapply same_config_trans; eauto|].
      split; [eapply cache_grows_trans; eauto|].
      split; [reflexivity|].
      intros Hlen a Ha Hname.
      destruct (decide (tail a = tail relative)) as [Heq|Hne].
      * rewrite (ancestor_self_eq _ _ Ha Heq). apply (G2 d). exact M1.
      * apply M2; [|apply ancestor_parent; assumption|exact Hname].
        assert (tail relative <> []).
        { intros E. destruct Ha as [_ [k Hk]]. rewrite E in Hk.
          symmetry in Hk. apply app_eq_nil in Hk as [Hk _]. congruence. }
        pose proof (parent_shorter relative H). lia.
    + wp_head. repeat split; auto using same_config_refl, cache_grows_refl.
      intros _ a Ha Hname. rewrite (has_name_ancestor _ _ Ha Hname) in Hn. discriminate.
Qed.

(** X16. The walk is ended by its guard, not by its fuel: any two amounts of
    fuel above the number of components give the same run. *)
Lemma mark_loop_fuel n m d base relative h :
  List.length (tail relative) < n ->
  List.length (tail relative) < m ->
  name_chars (root relative) = false ->
  mark_loop n d base relative h = mark_loop m d base relative h.
Proof.
  revert m relative h.
  induction n as [|n IH]; intros [|m] relative h Hn Hm Hroot; try lia.
  cbn [mark_loop]. destruct (has_name relative) eqn:E; [|reflexivity].
  assert (Hne : tail relative <> []).
  { intros Ht. rewrite has_name_no_tail in E by assumption. discriminate. }
  pose proof (parent_shorter relative Hne) as Hp.
  unfold mbind, M_bind, bind.
  destruct (outcome (dirs_add d (str (truediv base relative)) h)); [reflexivity|].
  rewrite (IH m (parent relative)); [reflexivity | lia | lia |].
  rewrite root_parent. exact Hroot.
Qed.

(** *** [_create_parent_dir_if_necessary] *)

Lemma _create_parent_dir_if_necessary_spec d base relative h :
  wp (_create_parent_dir_if_necessary d base relative)
     (fun _ h' t =>
        same_config h h' /\ cache_grows h h' /\
        commands t =
          (if decide (str (truediv base relative) ∈ cached h d) then []
           else mkdir_commands h (str relative)) /\
        (str (truediv base relative) ∉ cached h d ->
         forall a, ancestor_or_self a relative -> has_name a = true ->
                   str (truediv base a) ∈ cached h' d)) h.
Proof.
  unfold _create_parent_dir_if_necessary. wp_head.
  eapply wp_mono; [|apply dirs_of_spec].
  intros s h1 t1 (-> & C1 & D1 & ->).
  destruct (decide (str (truediv base relative) ∈ cached h d)) as [Hin|Hout].
  - wp_head. split; [exact C1|].
    split; [intros d'; rewrite D1; reflexivity|].
    split; [reflexivity|]. intros Hout. contradiction.
  - wp_head. eapply wp_mono; [|apply (ssh_mkdir_spec (inr (str relative))); exact I].
    intros [] h2 t2 ([C2 D2] & T2).
    eapply wp_mono; [|apply mark_loop_spec].
    intros [] h3 t3 (C3 & G3 & -> & M3). simpl. rewrite app_nil_r.
    split; [eauto using same_config_trans|].
    split.
    { eapply cache_grows_trans; [|exact G3]. intros d'. rewrite <- D1.
      unfold cached. rewrite D2. reflexivity. }
    split.
    { rewrite T2. unfold mkdir_commands. destruct C1 as (-> & -> & _). reflexivity. }
    intros _. apply M3. lia.
Qed.

End Presence.

(** ** The cache never shrinks *)

Module Monotone.
Import PyStr pathlib Cync Spec Hoare Effects Presence.

Section Preserved.
Variable R : handler -> handler -> Prop.
Hypothesis R_refl : forall h, R h h.
Hypothesis R_trans : forall h1 h2 h3, R h1 h2 -> R h2 h3 -> R h1 h3.

Lemma preserves_ret {A} (a : A) : preserves R (ret a).
Proof. intros h. apply R_refl. Qed.

Lemma preserves_raise {A} e : preserves R (@raise A e).
Proof. intros h. apply R_refl. Qed.

Lemma preserves_get : preserves R get.
Proof. intros h. apply R_refl. Qed.

Lemma preserves_emit a : preserves R (emit a).
Proof. intros h. apply R_refl. Qed.

Lemma preserves_modify f : (forall h, R h (f h)) -> preserves R (modify f).
Proof. intros H h. apply H. Qed.

Lemma preserves_lift {A} (r : exn + A) : preserves R (lift r).
Proof. destruct r; [apply preserves_raise | apply preserves_ret]. Qed.

Lemma preserves_bind {A B} (m : M A) (k : A -> M B) :
  preserves R m -> (forall a, preserves R (k a)) -> preserves R (m ≫= k).
Proof.
  intros Hm Hk h. unfold mbind, M_bind, bind.
  destruct (outcome (m h)) as [e|a] eqn:E; simpl; [apply Hm|].
  eapply R_trans; [apply Hm | apply Hk].
Qed.

Lemma preserves_when b m : preserves R m -> preserves R (when b m).
Proof. intros H. destruct b; [exact H | apply preserves_ret]. Qed.

Lemma preserves_assert b : preserves R (assert b).
Proof. destruct b; [apply preserves_ret | apply preserves_raise]. Qed.

Lemma preserves_for_each {A} (l : list A) (body : A -> M unit) :
  (forall x, preserves R (body x)) -> preserves R (for_each l body).
Proof.
  intros H. induction l as [|x l IH]; simpl.
  - apply preserves_ret.
  - apply preserves_bind; [apply H | intros _; exact IH].
Qed.

End Preserved.

(** Symbolic execution for [preserves cache_grows]. *)
Ltac grows_side :=
  lazymatch goal with
  | |- forall h : handler, cache_grows h h => exact cache_grows_refl
  | |- forall h1 h2 h3 : handler, cache_grows h1 h2 -> cache_grows h2 h3 -> cache_grows h1 h3 =>
      exact cache_grows_trans
  | |- _ => idtac
  end.

Ltac grows_step :=
  lazymatch goal with
  | |- preserves _ (mbind _ _) => apply preserves_bind; grows_side; [|intros ?]
  | |- preserves _ (for_each _ _) => apply preserves_for_each; grows_side; intros ?
  | |- preserves _ (when _ _) => apply preserves_when; grows_side
  | |- preserves _ (assert _) => apply preserves_assert; grows_side
  | |- preserves _ (lift _) => apply preserves_lift; grows_side
  | |- preserves _ get => apply preserves_get; grows_side
  | |- preserves _ (emit _) => apply preserves_emit; grows_side
  | |- preserves _ (raise _) => apply preserves_raise; grows_side
  | |- preserves _ (ret _) => apply preserves_ret; grows_side
  | |- preserves _ pass => apply preserves_ret; grows_side
  | |- preserves _ (modify (set_ssh_clients _)) =>
      apply preserves_modify; intros ?; apply frame_cache_grows, frame_set_ssh_clients
  | |- preserves _ (modify (set_scp_clients _)) =>
      apply preserves_modify; intros ?; apply frame_cache_grows, frame_set_scp_clients
  | |- preserves _ (modify (set_ignore_everything _)) =>
      apply preserves_modify; intros ? ?; reflexivity
  | |- preserves _ (modify (set_current_branch _)) =>
      apply preserves_modify; intros ? ?; reflexivity
  | |- preserves _ (if ?b then _ else _) => destruct b
  | |- preserves _ (match ?x with _ => _ end) => destruct x
  end.

Lemma _get_ssh_client_grows d : preserves cache_grows (_get_ssh_client d).
Proof. unfold _get_ssh_client. repeat grows_step. Qed.

Lemma _get_scp_client_grows d : preserves cache_grows (_get_scp_client d).
Proof.
  unfold _get_scp_client. repeat grows_step. apply _get_ssh_client_grows.
Qed.

Lemma run_on_grows ep command : preserves cache_grows (run_on ep command).
Proof.
  unfold run_on, exec_command. repeat grows_step. apply _get_ssh_client_grows.
Qed.

Lemma _ssh_cmd_grows command : preserves cache_grows (_ssh_cmd command).
Proof.
  unfold _ssh_cmd. grows_step; [grows_step|].
  generalize (targets a). intros ts. revert command.
  induction ts as [|t ts IH]; intros command; simpl.
  - grows_step.
  - grows_step; [grows_step|]. grows_step; [apply run_on_grows | apply IH].
Qed.

Lemma _ssh_rm_grows event : preserves cache_grows (_ssh_rm event).
Proof. unfold _ssh_rm. repeat grows_step. apply run_on_grows. Qed.

Lemma ssh_mkdir_grows event : preserves cache_grows (ssh_mkdir event).
Proof. unfold ssh_mkdir. repeat grows_step. apply run_on_grows. Qed.

Lemma dirs_of_grows d : preserves cache_grows (dirs_of d).
Proof.
  intros h. pose proof (dirs_of_spec d h) as W. apply wp_run in W as (s & _ & _ & _ & D & _).
  intros d'. rewrite D. reflexivity.
Qed.

Lemma dirs_add_grows d p : preserves cache_grows (dirs_add d p).
Proof.
  intros h. pose proof (dirs_add_spec d p h) as W. apply wp_run in W as (s & _ & _ & G & _).
  exact G.
Qed.

Lemma mark_loop_grows n d base relative : preserves cache_grows (mark_loop n d base relative).
Proof.
  intros h. pose proof (mark_loop_spec n d base relative h) as W.
  apply wp_run in W as (s & _ & _ & G & _). exact G.
Qed.

Lemma _create_parent_dir_if_necessary_grows d base relative :
  preserves cache_grows (_create_parent_dir_if_necessary d base relative).
Proof.
  unfold _create_parent_dir_if_necessary. repeat grows_step;
    auto using dirs_of_grows, ssh_mkdir_grows, mark_loop_grows.
Qed.

Lemma _scp_file_grows event : preserves cache_grows (_scp_file event).
Proof.
  unfold _scp_file, exec_command, put. repeat grows_step;
    auto using _get_scp_client_grows, _get_ssh_client_grows,
               _create_parent_dir_if_necessary_grows.
Qed.

Lemma skipped_grows event : preserves cache_grows (skipped event).
Proof. unfold skipped, _on_git_event. repeat grows_step. Qed.

Lemma on_created_grows event : preserves cache_grows (on_created event).
Proof.
  unfold on_created. repeat grows_step;
    auto using skipped_grows, ssh_mkdir_grows, _scp_file_grows.
Qed.

Lemma on_modified_grows event : preserves cache_grows (on_modified event).
Proof.
  unfold on_modified. repeat grows_step; auto using skipped_grows, _scp_file_grows.
Qed.

Lemma on_deleted_grows event : preserves cache_grows (on_deleted event).
Proof.
  unfold on_deleted. repeat grows_step; auto using skipped_grows, _ssh_rm_grows.
Qed.

Lemma on_moved_grows event : preserves cache_grows (on_moved event).
Proof.
  unfold on_moved. repeat grows_step;
    auto using skipped_grows, on_deleted_grows, on_created_grows.
Qed.

Lemma reset_targets_grows repo : preserves cache_grows (reset_targets repo).
Proof.
  unfold reset_targets. repeat grows_step;
    auto using _ssh_cmd_grows, _scp_file_grows.
Qed.

End Monotone.

(** ** Upload *)

Module Upload.
Import PyStr pathlib Cync Spec Hoare PyStrFacts Effects Presence.




Section Observed.
(** The actions one chooses to look at. Session set-up is never among
    them, nor is anything [ssh_mkdir] sends. *)
Variable P : action -> bool.
Hypothesis P_connect : forall d, P (Connect d) = false.
Hypothesis P_mkdir :
  forall ep c, List.filter P (run_on_commands ep ("mkdir -p " +:+ c)) = [].




End Observed.

End Upload.

(** ** Event handlers *)

Module Dispatch.
Import PyStr pathlib Cync Spec Hoare PyStrFacts Effects Presence Upload.

Lemma skipped_suppressed event h :
  _ignore_everything h = true -> skipped event h = mkRes (inr true) h [].
Proof.
  intros H. unfold skipped, _on_git_event.
  rewrite (bind_run _ _ tt) by (destruct (_is_git_path event); reflexivity).
  rewrite get_bind. unfold ret. rewrite H, orb_true_r. reflexivity.
Qed.
















End Dispatch.

(** ** Target descriptors at work *)

Section Targets.
Import PyStr pathlib Cync Spec Hoare PyStrFacts Effects Presence Upload.

Lemma partition_first c ud root :
  contains (String c "") ud = false ->
  partition (String c "") (ud +:+ String c root) = Some (ud, root).
Proof.
  induction ud as [|x ud IH]; simpl.
  - intros _. rewrite Ascii.eqb_refl. reflexivity.
  - destruct (Ascii.eqb c x); simpl; [discriminate|].
    intros H. rewrite (IH H). reflexivity.
Qed.

Lemma contains_separator c ud root :
  contains (String c "") (ud +:+ String c root) = true.
Proof.
  induction ud as [|x ud IH]; simpl.
  - rewrite Ascii.eqb_refl. reflexivity.
  - rewrite IH. apply orb_true_r.
Qed.

(** With a separator, the descriptor is cut at the first one. *)
Lemma parse_target_separator ud root :
  contains ":" ud = false ->
  parse_target (ud +:+ ":" +:+ root) = split_user ud root.
Proof.
  intros H. unfold parse_target, split1.
  change (":" +:+ root) with (String ":" root).
  rewrite contains_separator, (partition_first _ _ _ H). reflexivity.
Qed.








End Targets.

(** ** Path mapping *)

Section PathMapping.
Import PyStr pathlib Cync Spec Hoare PyStrFacts Effects.

Lemma startswith_app p s : startswith p (p +:+ s) = true.
Proof. induction p as [|x p IH]; simpl; [reflexivity|]. rewrite Ascii.eqb_refl. exact IH. Qed.

Lemma drop_app p s : drop (String.length p) (p +:+ s) = s.
Proof. induction p as [|x p IH]; simpl; [destruct s; reflexivity | exact IH]. Qed.

Lemma replace_from_skip old new p s :
  replace_from old new (String.length p) (p +:+ s) = replace_from old new 0 s.
Proof. induction p as [|x p IH]; simpl; [reflexivity | exact IH]. Qed.

Lemma replace_from_absent old new s :
  contains old s = false -> replace_from old new 0 s = s.
Proof.
  induction s as [|x s IH]; [reflexivity|].
  cbn [contains replace_from]. intros H. apply orb_false_elim in H as [H1 H2].
  rewrite H1, (IH H2). reflexivity.
Qed.

(** Stripping the watch root with [replace] is the relativization as long
    as the root does not occur again further down the path. *)
Lemma relative_src_path_prefix watch_root rel :
  contains watch_root rel = false ->
  relative_src_path watch_root (watch_root +:+ rel) = rel.
Proof.
  intros H. unfold relative_src_path, replace.
  destruct watch_root as [|c w]; [destruct rel; discriminate|].
  change (String c w +:+ rel) with (String c (w +:+ rel)).
  cbn [replace_from].
  change (String c (w +:+ rel)) with (String c w +:+ rel).
  rewrite startswith_app.
  replace (String.length (String c w) - 1) with (String.length w) by (simpl; lia).
  rewrite replace_from_skip, (replace_from_absent _ _ _ H). reflexivity.
Qed.

(** X17. For a local path made of the watch root followed by a relative
    part in which the watch root does not occur again, the three methods
    map it as the specification says: the remote root joined with that
    relative part. *)
Lemma target_path_relativized watch_root remote_root rel :
  contains watch_root rel = false ->
  spec_remote_path watch_root remote_root (watch_root +:+ rel)
  = Some (target_path watch_root remote_root (watch_root +:+ rel)).
Proof.
  intros H. unfold spec_remote_path, spec_relativize, target_path.
  rewrite startswith_app, drop_app, (relative_src_path_prefix _ _ H). reflexivity.
Qed.

(** C2, where the code departs from it: with watch root [/app/] and the
    local path [/app/lib/app/x.py] under it, the relativization is
    [lib/app/x.py] and the remote path under root [/r/] should be
    [/r/lib/app/x.py]; upload, removal and directory creation all compute
    [/r/libx.py] instead (and likewise under the other target's root),
    because [replace] strips every occurrence of the watch root, not only
    the leading one. *)
Theorem repeated_root_breaks_mapping :
  let h := init "/app/" ["h:/r/"; "g:/srv/mirror"] ["py"] "" "" in
  let local_path := "/app/lib/app/x.py" in
  spec_relativize local_path "/app/" = Some "lib/app/x.py"
  /\ spec_remote_path "/app/" "/r/" local_path = Some "/r/lib/app/x.py"
  /\ target_path "/app/" "/r/" local_path = "/r/libx.py"
  /\ commands (trace (_scp_file (FileCreatedEvent local_path) h))
     = [ ExecCommand "h" "mkdir -p /r"; ExecCommand "g" "mkdir -p /srv/mirror";
         ScpPut "h" local_path "/r/libx.py";
         ExecCommand "h" "mkdir -p /r"; ExecCommand "g" "mkdir -p /srv/mirror";
         ScpPut "g" local_path "/srv/mirror/libx.py" ]
  /\ commands (trace (_ssh_rm (FileDeletedEvent local_path) h))
     = [ ExecCommand "h" "rm -f /r/libx.py";
         ExecCommand "g" "rm -f /srv/mirror/libx.py" ]
  /\ commands (trace (ssh_mkdir (inl (mkEvent local_path "" true)) h))
     = [ ExecCommand "h" "mkdir -p /r/libx.py";
         ExecCommand "g" "mkdir -p /srv/mirror/libx.py" ].
Proof. vm_compute. repeat split. Qed.

End PathMapping.

(** ** The presence cache at work *)

Section DirectoryPresence.
Import PyStr pathlib Cync Spec Hoare PyStrFacts Effects Presence Monotone.

(** X1. Whatever the engine is asked to do, and whether it returns or raises,
    no host loses a marked directory: every later state has a cache at
    least as large. *)
Lemma cache_never_shrinks h event repo :
  cache_grows h (final (on_created event h))
  /\ cache_grows h (final (on_modified event h))
  /\ cache_grows h (final (on_deleted event h))
  /\ cache_grows h (final (on_moved event h))
  /\ cache_grows h (final (reset_targets repo h)).
Proof.
  repeat split.
  - apply on_created_grows.
  - apply on_modified_grows.
  - apply on_deleted_grows.
  - apply on_moved_grows.
  - apply reset_targets_grows.
Qed.

Lemma cached_lookup h d p :
  p ∈ cached h d -> _dirs_exists_on_targets h !! d = Some (cached h d).
Proof.
  unfold cached. destruct (_dirs_exists_on_targets h !! d); simpl; [reflexivity|].
  intros H. apply not_elem_of_empty in H. destruct H.
Qed.

(** A directory already marked for the host makes the call a no-op. *)
Lemma _create_parent_dir_if_necessary_hit d base relative h :
  str (truediv base relative) ∈ cached h d ->
  _create_parent_dir_if_necessary d base relative h = mkRes (inr tt) h [].
Proof.
  intros Hin. unfold _create_parent_dir_if_necessary.
  rewrite (bind_run _ _ (cached h d))
    by (apply dirs_of_present; eapply cached_lookup; exact Hin).
  destruct (decide _); [reflexivity | contradiction].
Qed.

(** A call for a directory without a name in it, such as the root marker,
    marks nothing. *)
Lemma _create_parent_dir_if_necessary_unnamed d base relative h :
  has_name relative = false ->
  forall d', cached (final (_create_parent_dir_if_necessary d base relative h)) d'
             = cached h d'.
Proof.
  intros Hn.
  assert (W : wp (_create_parent_dir_if_necessary d base relative)
                (fun _ h' _ => forall d', cached h' d' = cached h d') h).
  { unfold _create_parent_dir_if_necessary. wp_head.
    eapply wp_mono; [|apply dirs_of_spec].
    intros s h1 t1 (-> & _ & D1 & ->).
    destruct (decide _); [wp_head; exact D1|].
    wp_head. eapply wp_mono; [|apply (ssh_mkdir_spec (inr (str relative))); exact I].
    intros [] h2 t2 ([_ D2] & _). cbn [mark_loop]. rewrite Hn. wp_head.
    intros d'. rewrite <- D1. unfold cached. rewrite D2. reflexivity. }
  apply (wp_post _ _ _ tt W). eapply wp_outcome. exact W.
Qed.

(** C6, as the code has it: after a call for [relative] under a host and
    root has returned, any later call under the same host and root, in a
    state whose cache has not lost anything (as every later state is, by
    [cache_never_shrinks]), is a no-op (no action, state untouched) when it
    is for a directory with a name in it (a character other than "." and
    "/") that is either [relative] itself or, if the first call was the one
    that issued the creation, an ancestor of [relative]. *)
Theorem ensure_then_cached h d base relative a h2 :
  let r := _create_parent_dir_if_necessary d base relative h in
  outcome r = inr tt ->
  a = relative \/
    (ancestor_or_self a relative /\ str (truediv base relative) ∉ cached h d) ->
  has_name a = true ->
  cached (final r) d ⊆ cached h2 d ->
  _create_parent_dir_if_necessary d base a h2 = mkRes (inr tt) h2 [].
Proof.
  intros r Hok Ha Hname Hlater. subst r.
  apply _create_parent_dir_if_necessary_hit. apply Hlater.
  pose proof (wp_post _ _ _ tt (_create_parent_dir_if_necessary_spec d base relative h) Hok)
    as (_ & Hgrow & _ & Hmark).
  destruct Ha as [->|[Hanc Hmiss]].
  - destruct (decide (str (truediv base relative) ∈ cached h d)) as [Hin|Hout].
    + apply (Hgrow d). exact Hin.
    + apply Hmark; [exact Hout | | exact Hname]. split; reflexivity.
  - apply Hmark; assumption.
Qed.

Lemma ensure_then_cached_witness :
  let h := init "/w/" ["h:/r"] ["py"] "" "" in
  let r := _create_parent_dir_if_necessary "h" (Path "/r") (Path "src/pkg") h in
  _create_parent_dir_if_necessary "h" (Path "/r") (Path "src") (final r)
  = mkRes (inr tt) (final r) [].
Proof.
  apply (ensure_then_cached (init "/w/" ["h:/r"] ["py"] "" "") "h"
           (Path "/r") (Path "src/pkg") (Path "src")).
  - vm_compute. reflexivity.
  - right. split.
    + split; [reflexivity | exists ["pkg"]; reflexivity].
    + apply not_elem_of_empty.
  - reflexivity.
  - reflexivity.
Defined.

(** C6 as the spec words it does not hold: the watch root itself (the
    parent of a file directly under it) is never marked, so the creation
    call is issued again on every call. *)
Lemma ensure_root_never_cached :
  ~ ensure_claim (init "/w/" ["h:/r"] ["py"] "" "") "h"
                 (Path "/r") (parent (Path "a.txt")) (parent (Path "a.txt")).
Proof.
  unfold ensure_claim. intros H.
  assert (E : trace (_create_parent_dir_if_necessary "h" (Path "/r") (parent (Path "a.txt"))
                (final (_create_parent_dir_if_necessary "h" (Path "/r")
                          (parent (Path "a.txt")) (init "/w/" ["h:/r"] ["py"] "" ""))))
              = [ExecCommand "h" "mkdir -p /r"]) by (vm_compute; reflexivity).
  rewrite H in E.
  - discriminate.
  - vm_compute. reflexivity.
  - split; [reflexivity | exists []; reflexivity].
Qed.

End DirectoryPresence.

(** ** The dispatcher *)

Section Replication.
Import PyStr pathlib Cync Spec Hoare PyStrFacts Effects Presence Upload Dispatch.

(** C8: while the suppression flag is set, a notification of any kind
    (created, modified, deleted, moved) is rejected: the handler returns
    at once, no session is opened, no command or upload is sent, and the
    instance is left as it was. *)
Theorem suppressed_events_are_rejected h event :
  _ignore_everything h = true ->
  on_created event h = mkRes (inr tt) h []
  /\ on_modified event h = mkRes (inr tt) h []
  /\ on_deleted event h = mkRes (inr tt) h []
  /\ on_moved event h = mkRes (inr tt) h [].
Proof.
  intros H. unfold on_created, on_modified, on_deleted, on_moved.
  rewrite !(bind_run _ _ true) by (apply skipped_suppressed; exact H).
  repeat split.
Qed.

Lemma suppressed_events_are_rejected_witness :
  let h := set_ignore_everything true (init "/w/" ["h:/r"] ["py"] "" "") in
  let event := mkEvent "/w/a.py" "/w/b.py" false in
  on_created event h = mkRes (inr tt) h []
  /\ on_modified event h = mkRes (inr tt) h []
  /\ on_deleted event h = mkRes (inr tt) h []
  /\ on_moved event h = mkRes (inr tt) h [].
Proof.
  apply (suppressed_events_are_rejected
           (set_ignore_everything true (init "/w/" ["h:/r"] ["py"] "" ""))
           (mkEvent "/w/a.py" "/w/b.py" false)).
  reflexivity.
Defined.







End Replication.

(** ** Branch reconciliation *)

Section Reconciliation.
Import PyStr pathlib Cync Spec Hoare PyStrFacts Effects.

(** A failed push, exactly: the flag has been raised, the push attempted,
    and the error leaves [reset_targets] at once. *)
Lemma reset_targets_push_failure h repo :
  active_branch repo <> _current_branch h ->
  push_ok repo = false ->
  reset_targets repo h
  = mkRes (inl GitCommandError) (set_ignore_everything true h) [GitPush].
Proof.
  intros Hne Hpush. unfold reset_targets. rewrite get_bind.
  apply String.eqb_neq in Hne. rewrite Hne. simpl negb. cbv iota.
  unfold mbind, M_bind, bind. simpl. rewrite Hpush. reflexivity.
Qed.

(** C1, as the code has it: if the force-push fails, reconciliation is
    abandoned with the push error; the push is the only thing that was
    attempted, so no target has received any command, and the last
    reconciled branch, the connection pool and the presence cache are
    what they were. The suppression flag, raised before the push, is left
    raised. *)
Theorem push_failure_touches_no_target h repo :
  active_branch repo <> _current_branch h ->
  push_ok repo = false ->
  let r := reset_targets repo h in
  outcome r = inl GitCommandError
  /\ trace r = [GitPush]
  /\ List.filter is_remote (trace r) = []
  /\ _ignore_everything (final r) = true
  /\ _current_branch (final r) = _current_branch h
  /\ _ssh_clients (final r) = _ssh_clients h
  /\ _scp_clients (final r) = _scp_clients h
  /\ _dirs_exists_on_targets (final r) = _dirs_exists_on_targets h.
Proof.
  intros Hne Hpush r. subst r.
  rewrite (reset_targets_push_failure h repo Hne Hpush). simpl. tauto.
Qed.

Lemma push_failure_touches_no_target_witness :
  let h := init "/w/" ["h:/r"] ["py"] "" "dev" in
  let r := reset_targets (mkRepo "main" ["notes.txt"] false) h in
  outcome r = inl GitCommandError
  /\ trace r = [GitPush]
  /\ List.filter is_remote (trace r) = []
  /\ _ignore_everything (final r) = true
  /\ _current_branch (final r) = "dev"
  /\ _ssh_clients (final r) = _ssh_clients h
  /\ _scp_clients (final r) = _scp_clients h
  /\ _dirs_exists_on_targets (final r) = _dirs_exists_on_targets h.
Proof.
  apply (push_failure_touches_no_target
           (init "/w/" ["h:/r"] ["py"] "" "dev") (mkRepo "main" ["notes.txt"] false)).
  - simpl. discriminate.
  - reflexivity.
Defined.

(** C1 as the spec words it does not hold: after a failed push the
    suppression flag is still raised. *)
Lemma push_failure_leaves_flag_raised :
  ~ push_failure_claim (init "/w/" ["h:/r"] ["py"] "" "dev")
                       (mkRepo "main" ["notes.txt"] false).
Proof.
  unfold push_failure_claim. intros H.
  destruct H as [_ H]; [simpl; discriminate | reflexivity |].
  rewrite reset_targets_push_failure in H; [|simpl; discriminate | reflexivity].
  simpl in H. discriminate.
Qed.

(** A reconciliation that returns has recorded the active branch. *)
Lemma reset_targets_records_branch repo :
  returns_in (reset_targets repo)
             (fun h' => _current_branch h' = active_branch repo).
Proof.
  intros h a. unfold reset_targets. rewrite get_bind.
  destruct (String.eqb (active_branch repo) (_current_branch h)) eqn:E; cbn [negb].
  - intros _. apply String.eqb_eq in E. simpl. congruence.
  - apply (returns_in_bind _ _ (fun h' => _current_branch h' = active_branch repo)).
    intros _.
    do 5 (apply returns_in_bind; intros _).
    apply returns_in_modify. reflexivity.
Qed.

(** C7: a second reconciliation, with the active branch unchanged since a
    first one that returned, does nothing: no push, no remote command, no
    upload, and the instance is left exactly as the first call left it. *)
Theorem reset_targets_twice_noop h repo repo' :
  active_branch repo' = active_branch repo ->
  outcome (reset_targets repo h) = inr tt ->
  reset_targets repo' (final (reset_targets repo h))
  = mkRes (inr tt) (final (reset_targets repo h)) [].
Proof.
  intros Hb Hok.
  pose proof (reset_targets_records_branch repo h tt Hok) as Hrec.
  unfold reset_targets at 1. rewrite get_bind, Hrec, Hb, String.eqb_refl.
  reflexivity.
Qed.

Lemma reset_targets_twice_noop_witness :
  let h := init "/w/" ["h:/r"] ["py"] "" "dev" in
  let repo := mkRepo "main" ["notes.txt"] true in
  let repo' := mkRepo "main" ["notes.txt"; "more.txt"] true in
  reset_targets repo' (final (reset_targets repo h))
  = mkRes (inr tt) (final (reset_targets repo h)) [].
Proof.
  apply (reset_targets_twice_noop (init "/w/" ["h:/r"] ["py"] "" "dev")
           (mkRepo "main" ["notes.txt"] true)
           (mkRepo "main" ["notes.txt"; "more.txt"] true)).
  - reflexivity.
  - vm_compute. reflexivity.
Defined.

(** What a reconciliation with nothing to upload does after a push that
    succeeds. *)
Lemma reset_targets_commands h repo :
  active_branch repo <> _current_branch h ->
  push_ok repo = true ->
  untracked_files repo = [] ->
  outcome (reset_targets repo h) = inr tt
  /\ commands (trace (reset_targets repo h))
     = GitPush :: ssh_cmd_commands (targets h) (reset_command (active_branch repo)).
Proof.
  intros Hne Hpush Hun.
  assert (W : wp (reset_targets repo)
                (fun _ _ t =>
                   commands t
                   = GitPush
                     :: ssh_cmd_commands (targets h) (reset_command (active_branch repo))) h).
  { unfold reset_targets. apply wp_bind, wp_get.
    apply String.eqb_neq in Hne. rewrite Hne, Hpush, Hun. cbn [negb for_each].
    apply wp_bind, wp_modify. apply wp_bind, wp_emit. apply wp_bind, wp_pass.
    apply wp_bind. eapply wp_mono; [|apply _ssh_cmd_spec].
    intros [] h1 t1 [_ T1]. apply wp_bind, wp_pass. apply wp_bind, wp_modify.
    apply wp_modify. simpl. rewrite app_nil_r. f_equal. exact T1. }
  split; [eapply wp_outcome; exact W|].
  apply (wp_post _ _ _ tt W). eapply wp_outcome. exact W.
Qed.

(** C4, where the code departs from it: with targets [h1:/r1] and
    [h2:/r2], reconciling onto [main] sends [h1] the chain under
    [cd /r1], but sends [h2] the chain under [cd /r2 && cd /r1]: the
    command is reassigned inside the loop, so each target's command
    carries the roots of the targets before it. Changing the first
    target's root changes what the second receives. *)
Theorem reset_command_accumulates_roots :
  let repo := mkRepo "main" [] true in
  trace (reset_targets repo (init "/w/" ["h1:/r1"; "h2:/r2"] ["py"] "" "dev"))
  = [ GitPush;
      Connect "h1"; ExecCommand "h1" ("cd /r1 && " +:+ reset_command "main");
      Connect "h2"; ExecCommand "h2" ("cd /r2 && cd /r1 && " +:+ reset_command "main") ]
  /\ trace (reset_targets repo (init "/w/" ["h1:/elsewhere"; "h2:/r2"] ["py"] "" "dev"))
     = [ GitPush;
         Connect "h1"; ExecCommand "h1" ("cd /elsewhere && " +:+ reset_command "main");
         Connect "h2";
         ExecCommand "h2" ("cd /r2 && cd /elsewhere && " +:+ reset_command "main") ].
Proof. vm_compute. split; reflexivity. Qed.

End Reconciliation.

(** ** The connection pool *)

Module Pool.
Import PyStr pathlib Cync Spec Laws Hoare Effects Presence.

#[local] Set Warnings "-clear-no-such-hyp".

Section Traced.
Variable R : handler -> list action -> handler -> Prop.
Hypothesis R_nil : forall h, R h [] h.
Hypothesis R_app :
  forall h t1 h1 t2 h2, R h t1 h1 -> R h1 t2 h2 -> R h (t1 ++ t2) h2.

Lemma traced_ret {A} (a : A) : traced R (ret a).
Proof. intros h. apply R_nil. Qed.

Lemma traced_raise {A} e : traced R (@raise A e).
Proof. intros h. apply R_nil. Qed.

Lemma traced_get : traced R get.
Proof. intros h. apply R_nil. Qed.

Lemma traced_lift {A} (r : exn + A) : traced R (lift r).
Proof. destruct r; [apply traced_raise | apply traced_ret]. Qed.

Lemma traced_assert b : traced R (assert b).
Proof. destruct b; [apply traced_ret | apply traced_raise]. Qed.

Lemma traced_bind {A B} (m : M A) (k : A -> M B) :
  traced R m -> (forall a, traced R (k a)) -> traced R (m ≫= k).
Proof.
  intros Hm Hk h. unfold mbind, M_bind, bind.
  destruct (outcome (m h)) as [e|a] eqn:E; simpl; [apply Hm|].
  eapply R_app; [apply Hm | apply Hk].
Qed.

Lemma traced_when b m : traced R m -> traced R (when b m).
Proof. intros H. destruct b; [exact H | apply traced_ret]. Qed.

Lemma traced_for_each {A} (l : list A) (body : A -> M unit) :
  (forall x, traced R (body x)) -> traced R (for_each l body).
Proof.
  intros H. induction l as [|x l IH]; simpl.
  - apply traced_ret.
  - apply traced_bind; [apply H | intros _; exact IH].
Qed.

End Traced.

Lemma connects_app t1 t2 : connects (t1 ++ t2) = connects t1 ++ connects t2.
Proof. apply flat_map_app. Qed.

Lemma elem_of_connects d t : d ∈ connects t <-> Connect d ∈ t.
Proof.
  unfold connects. rewrite !list_elem_of_In, in_flat_map. split.
  - intros (a & Ha & Hd). destruct a; simpl in Hd; try tauto.
    destruct Hd as [->|[]]. exact Ha.
  - intros H. exists (Connect d). split; [exact H | left; reflexivity].
Qed.

Lemma pool_step_nil h : pool_step h [] h.
Proof.
  unfold pool_step. simpl.
  split; [set_solver|]. split; [constructor|].
  split; [intros d Hd; inversion Hd|]. split; [reflexivity | tauto].
Qed.

Lemma pool_step_app h t1 h1 t2 h2 :
  pool_step h t1 h1 -> pool_step h1 t2 h2 -> pool_step h (t1 ++ t2) h2.
Proof.
  intros (E1 & N1 & F1 & S1 & I1) (E2 & N2 & F2 & S2 & I2).
  unfold pool_step. rewrite connects_app, list_to_set_app_L.
  split; [rewrite E2, E1; set_solver|].
  split.
  { apply NoDup_app. split; [exact N1|]. split; [|exact N2].
    intros d Hd Hd2. apply (F2 d Hd2). rewrite E1. set_solver. }
  split.
  { intros d Hd. apply elem_of_app in Hd as [Hd|Hd]; [apply F1; exact Hd|].
    intros Hin. apply (F2 d Hd). rewrite E1. set_solver. }
  split; [etrans; eassumption | tauto].
Qed.

(** The pool left alone: nothing opened, both caches as they were. *)
Lemma pool_step_silent h t h' :
  connects t = [] ->
  _ssh_clients h' = _ssh_clients h -> _scp_clients h' = _scp_clients h ->
  pool_step h t h'.
Proof.
  intros Ht E1 E2. unfold pool_step. rewrite Ht, E1, E2. simpl.
  split; [set_solver|]. split; [constructor|].
  split; [intros d Hd; inversion Hd|]. split; [reflexivity | tauto].
Qed.

Lemma _get_ssh_client_pool d : traced pool_step (_get_ssh_client d).
Proof.
  intros h. unfold _get_ssh_client. rewrite get_bind.
  destruct (decide (d ∈ _ssh_clients h)) as [Hin|Hout]; [apply pool_step_nil|].
  unfold pool_step. simpl.
  split; [set_solver|]. split; [apply NoDup_singleton|].
  split; [intros d' Hd; apply list_elem_of_singleton in Hd as ->; exact Hout|].
  split; [reflexivity | set_solver].
Qed.

Lemma _get_scp_client_pool d : traced pool_step (_get_scp_client d).
Proof.
  intros h. unfold _get_scp_client. rewrite get_bind.
  destruct (decide (d ∈ _scp_clients h)) as [Hin|Hout]; [apply pool_step_nil|].
  unfold _get_ssh_client. unfold mbind, M_bind, bind, get, modify, emit, ret. simpl.
  destruct (decide (d ∈ _ssh_clients h)) as [Hs|Hs]; simpl; unfold pool_step; simpl.
  - split; [set_solver|]. split; [constructor|].
    split; [intros d' Hd; inversion Hd|]. split; set_solver.
  - split; [set_solver|]. split; [apply NoDup_singleton|].
    split; [intros d' Hd; apply list_elem_of_singleton in Hd as ->; exact Hs|].
    split; set_solver.
Qed.

(** Symbolic execution for [traced pool_step]. *)
Ltac pool_go :=
  lazymatch goal with
  | |- traced _ (mbind _ _) =>
      apply (traced_bind _ pool_step_app); [|intros ?]
  | |- traced _ (for_each _ _) =>
      apply (traced_for_each _ pool_step_nil pool_step_app); intros ?
  | |- traced _ (when _ _) => apply (traced_when _ pool_step_nil)
  | |- traced _ (assert _) => apply (traced_assert _ pool_step_nil)
  | |- traced _ (lift _) => apply (traced_lift _ pool_step_nil)
  | |- traced _ get => apply (traced_get _ pool_step_nil)
  | |- traced _ (raise _) => apply (traced_raise _ pool_step_nil)
  | |- traced _ (ret _) => apply (traced_ret _ pool_step_nil)
  | |- traced _ pass => apply (traced_ret _ pool_step_nil)
  | |- traced _ (_get_ssh_client _) => apply _get_ssh_client_pool
  | |- traced _ (_get_scp_client _) => apply _get_scp_client_pool
  | |- traced _ (emit _) => intros ?; apply pool_step_silent; reflexivity
  | |- traced _ (modify _) => intros ?; apply pool_step_silent; reflexivity
  | |- traced _ (if ?b then _ else _) => destruct b
  | |- traced _ (match ?x with _ => _ end) => destruct x
  end.

Lemma run_on_pool ep command : traced pool_step (run_on ep command).
Proof. unfold run_on, exec_command. repeat pool_go. Qed.

Lemma _ssh_cmd_pool command : traced pool_step (_ssh_cmd command).
Proof.
  unfold _ssh_cmd. pool_go; [pool_go|].
  generalize (targets a). intros ts. revert command.
  induction ts as [|t ts IH]; intros command; simpl.
  - pool_go.
  - pool_go; [pool_go|]. pool_go; [apply run_on_pool | apply IH].
Qed.

Lemma _ssh_rm_pool event : traced pool_step (_ssh_rm event).
Proof. unfold _ssh_rm. repeat pool_go. apply run_on_pool. Qed.

Lemma ssh_mkdir_pool event : traced pool_step (ssh_mkdir event).
Proof. unfold ssh_mkdir. repeat pool_go. apply run_on_pool. Qed.

Lemma dirs_of_pool d : traced pool_step (dirs_of d).
Proof. unfold dirs_of. repeat pool_go. Qed.

Lemma dirs_add_pool d p : traced pool_step (dirs_add d p).
Proof. unfold dirs_add. repeat pool_go. apply dirs_of_pool. Qed.

Lemma mark_loop_pool n d base relative : traced pool_step (mark_loop n d base relative).
Proof.
  revert relative. induction n as [|n IH]; intros relative; simpl.
  - pool_go.
  - repeat pool_go; [apply dirs_add_pool | apply IH].
Qed.

Lemma _create_parent_dir_if_necessary_pool d base relative :
  traced pool_step (_create_parent_dir_if_necessary d base relative).
Proof.
  unfold _create_parent_dir_if_necessary. repeat pool_go;
    auto using dirs_of_pool, ssh_mkdir_pool, mark_loop_pool.
Qed.

Lemma _scp_file_pool event : traced pool_step (_scp_file event).
Proof.
  unfold _scp_file, exec_command, put. repeat pool_go.
  apply _create_parent_dir_if_necessary_pool.
Qed.

Lemma skipped_pool event : traced pool_step (skipped event).
Proof. unfold skipped, _on_git_event. repeat pool_go. Qed.

Lemma on_created_pool event : traced pool_step (on_created event).
Proof.
  unfold on_created. repeat pool_go;
    auto using skipped_pool, ssh_mkdir_pool, _scp_file_pool.
Qed.

Lemma on_modified_pool event : traced pool_step (on_modified event).
Proof. unfold on_modified. repeat pool_go; auto using skipped_pool, _scp_file_pool. Qed.

Lemma on_deleted_pool event : traced pool_step (on_deleted event).
Proof. unfold on_deleted. repeat pool_go; auto using skipped_pool, _ssh_rm_pool. Qed.

Lemma on_moved_pool event : traced pool_step (on_moved event).
Proof.
  unfold on_moved. repeat pool_go;
    auto using skipped_pool, on_deleted_pool, on_created_pool.
Qed.

Lemma reset_targets_pool repo : traced pool_step (reset_targets repo).
Proof.
  unfold reset_targets. repeat pool_go; auto using _ssh_cmd_pool, _scp_file_pool.
Qed.

End Pool.

(** ** What the event handlers leave alone *)

Module Config.
Import PyStr pathlib Cync Spec Laws Hoare Effects Presence Monotone.

Lemma same_config_modify f :
  (forall h, same_config h (f h)) -> preserves same_config (modify f).
Proof. intros H h. apply H. Qed.

(** Symbolic execution for [preserves same_config]. *)
Ltac config_go :=
  lazymatch goal with
  | |- preserves _ (mbind _ _) => apply (preserves_bind _ same_config_trans); [|intros ?]
  | |- preserves _ (for_each _ _) =>
      apply (preserves_for_each _ same_config_refl same_config_trans); intros ?
  | |- preserves _ (when _ _) => apply (preserves_when _ same_config_refl)
  | |- preserves _ (assert _) => apply (preserves_assert _ same_config_refl)
  | |- preserves _ (lift _) => apply (preserves_lift _ same_config_refl)
  | |- preserves _ get => apply (preserves_get _ same_config_refl)
  | |- preserves _ (emit _) => apply (preserves_emit _ same_config_refl)
  | |- preserves _ (raise _) => apply (preserves_raise _ same_config_refl)
  | |- preserves _ (ret _) => apply (preserves_ret _ same_config_refl)
  | |- preserves _ pass => apply (preserves_ret _ same_config_refl)
  | |- preserves _ (modify (set_ssh_clients _)) =>
      apply same_config_modify; intros ?; apply frame_set_ssh_clients
  | |- preserves _ (modify (set_scp_clients _)) =>
      apply same_config_modify; intros ?; apply frame_set_scp_clients
  | |- preserves _ (modify (set_dirs _)) =>
      apply same_config_modify; intros ?; apply same_config_set_dirs
  | |- preserves _ (if ?b then _ else _) => destruct b
  | |- preserves _ (match ?x with _ => _ end) => destruct x
  end.

Lemma _get_ssh_client_config d : preserves same_config (_get_ssh_client d).
Proof. unfold _get_ssh_client. repeat config_go. Qed.

Lemma _get_scp_client_config d : preserves same_config (_get_scp_client d).
Proof. unfold _get_scp_client. repeat config_go. apply _get_ssh_client_config. Qed.

Lemma run_on_config ep command : preserves same_config (run_on ep command).
Proof. unfold run_on, exec_command. repeat config_go. apply _get_ssh_client_config. Qed.

Lemma _ssh_rm_config event : preserves same_config (_ssh_rm event).
Proof. unfold _ssh_rm. repeat config_go. apply run_on_config. Qed.

Lemma ssh_mkdir_config event : preserves same_config (ssh_mkdir event).
Proof. unfold ssh_mkdir. repeat config_go. apply run_on_config. Qed.

Lemma dirs_of_config d : preserves same_config (dirs_of d).
Proof. unfold dirs_of. repeat config_go. Qed.

Lemma dirs_add_config d p : preserves same_config (dirs_add d p).
Proof. unfold dirs_add. repeat config_go. apply dirs_of_config. Qed.

Lemma mark_loop_config n d base relative :
  preserves same_config (mark_loop n d base relative).
Proof.
  revert relative. induction n as [|n IH]; intros relative; simpl.
  - config_go.
  - repeat config_go; [apply dirs_add_config | apply IH].
Qed.

Lemma _create_parent_dir_if_necessary_config d base relative :
  preserves same_config (_create_parent_dir_if_necessary d base relative).
Proof.
  unfold _create_parent_dir_if_necessary. repeat config_go;
    auto using dirs_of_config, ssh_mkdir_config, mark_loop_config.
Qed.

Lemma _scp_file_config event : preserves same_config (_scp_file event).
Proof.
  unfold _scp_file, exec_command, put. repeat config_go;
    auto using _get_scp_client_config, _get_ssh_client_config,
               _create_parent_dir_if_necessary_config.
Qed.

Lemma skipped_config event : preserves same_config (skipped event).
Proof. unfold skipped, _on_git_event. repeat config_go. Qed.

Lemma on_created_config event : preserves same_config (on_created event).
Proof.
  unfold on_created. repeat config_go;
    auto using skipped_config, ssh_mkdir_config, _scp_file_config.
Qed.

Lemma on_modified_config event : preserves same_config (on_modified event).
Proof. unfold on_modified. repeat config_go; auto using skipped_config, _scp_file_config. Qed.

Lemma on_deleted_config event : preserves same_config (on_deleted event).
Proof. unfold on_deleted. repeat config_go; auto using skipped_config, _ssh_rm_config. Qed.

Lemma on_moved_config event : preserves same_config (on_moved event).
Proof.
  unfold on_moved. repeat config_go;
    auto using skipped_config, on_deleted_config, on_created_config.
Qed.

Lemma same_dirs_refl h : same_dirs h h.
Proof. reflexivity. Qed.

Lemma same_dirs_trans h1 h2 h3 : same_dirs h1 h2 -> same_dirs h2 h3 -> same_dirs h1 h3.
Proof. unfold same_dirs. congruence. Qed.

Ltac dirs_go :=
  lazymatch goal with
  | |- preserves _ (mbind _ _) => apply (preserves_bind _ same_dirs_trans); [|intros ?]
  | |- preserves _ (for_each _ _) =>
      apply (preserves_for_each _ same_dirs_refl same_dirs_trans); intros ?
  | |- preserves _ (when _ _) => apply (preserves_when _ same_dirs_refl)
  | |- preserves _ (assert _) => apply (preserves_assert _ same_dirs_refl)
  | |- preserves _ (lift _) => apply (preserves_lift _ same_dirs_refl)
  | |- preserves _ get => apply (preserves_get _ same_dirs_refl)
  | |- preserves _ (emit _) => apply (preserves_emit _ same_dirs_refl)
  | |- preserves _ (raise _) => apply (preserves_raise _ same_dirs_refl)
  | |- preserves _ (ret _) => apply (preserves_ret _ same_dirs_refl)
  | |- preserves _ pass => apply (preserves_ret _ same_dirs_refl)
  | |- preserves _ (modify (set_ssh_clients _)) => intros ?; reflexivity
  | |- preserves _ (if ?b then _ else _) => destruct b
  | |- preserves _ (match ?x with _ => _ end) => destruct x
  end.

Lemma run_on_dirs ep command : preserves same_dirs (run_on ep command).
Proof. unfold run_on, exec_command, _get_ssh_client. repeat dirs_go. Qed.

Lemma _ssh_rm_dirs event : preserves same_dirs (_ssh_rm event).
Proof. unfold _ssh_rm. repeat dirs_go. apply run_on_dirs. Qed.

Lemma ssh_mkdir_dirs event : preserves same_dirs (ssh_mkdir event).
Proof. unfold ssh_mkdir. repeat dirs_go. apply run_on_dirs. Qed.

Lemma skipped_dirs event : preserves same_dirs (skipped event).
Proof. unfold skipped, _on_git_event. repeat dirs_go. Qed.

Lemma on_deleted_dirs event : preserves same_dirs (on_deleted event).
Proof. unfold on_deleted. repeat dirs_go; auto using skipped_dirs, _ssh_rm_dirs. Qed.

End Config.

(** ** Invariants of the engine *)

Section Invariants.
Import PyStr pathlib Cync Spec Laws Main Hoare Effects Presence Monotone Pool Config.


(** X3. A transfer channel is only ever cached for a host that has a session:
    if that holds before a notification or a reconciliation, it holds
    after it, returning or raising. *)
Theorem channels_have_sessions h event repo :
  _scp_clients h ⊆ _ssh_clients h ->
  (let h' := final (on_created event h) in _scp_clients h' ⊆ _ssh_clients h')
  /\ (let h' := final (on_modified event h) in _scp_clients h' ⊆ _ssh_clients h')
  /\ (let h' := final (on_deleted event h) in _scp_clients h' ⊆ _ssh_clients h')
  /\ (let h' := final (on_moved event h) in _scp_clients h' ⊆ _ssh_clients h')
  /\ (let h' := final (reset_targets repo h) in _scp_clients h' ⊆ _ssh_clients h').
Proof.
  intros H.
  split; [apply (on_created_pool event h); exact H|].
  split; [apply (on_modified_pool event h); exact H|].
  split; [apply (on_deleted_pool event h); exact H|].
  split; [apply (on_moved_pool event h); exact H|].
  apply (reset_targets_pool repo h); exact H.
Qed.

Lemma channels_have_sessions_witness :
  let h := __init__ "/w/" ["h:/r"; "u@g:/q"] "py,sh" "" "" in
  let event := mkEvent "/w/a.py" "/w/b.py" false in
  let repo := mkRepo "main" ["notes.txt"] true in
  (let h' := final (on_created event h) in _scp_clients h' ⊆ _ssh_clients h')
  /\ (let h' := final (on_modified event h) in _scp_clients h' ⊆ _ssh_clients h')
  /\ (let h' := final (on_deleted event h) in _scp_clients h' ⊆ _ssh_clients h')
  /\ (let h' := final (on_moved event h) in _scp_clients h' ⊆ _ssh_clients h')
  /\ (let h' := final (reset_targets repo h) in _scp_clients h' ⊆ _ssh_clients h').
Proof.
  apply (channels_have_sessions
           (__init__ "/w/" ["h:/r"; "u@g:/q"] "py,sh" "" "")
           (mkEvent "/w/a.py" "/w/b.py" false)
           (mkRepo "main" ["notes.txt"] true)).
  simpl. reflexivity.
Defined.

(** X4. No notification, whatever it is and however it ends, changes the watch
    root, the targets, the extensions, the last reconciled branch or the
    suppression flag. *)
Theorem handlers_keep_configuration h event :
  same_config h (final (on_created event h))
  /\ same_config h (final (on_modified event h))
  /\ same_config h (final (on_deleted event h))
  /\ same_config h (final (on_moved event h)).
Proof.
  split; [apply on_created_config|]. split; [apply on_modified_config|].
  split; [apply on_deleted_config | apply on_moved_config].
Qed.

(** X5. A deleted notification, and a created one for a directory, leave the
    presence cache exactly as it was, returning or raising: removing a
    directory does not unmark it, and creating one does not mark it. *)
Theorem delete_and_mkdir_leave_cache h event src dst :
  _dirs_exists_on_targets (final (on_deleted event h)) = _dirs_exists_on_targets h
  /\ _dirs_exists_on_targets (final (on_created (mkEvent src dst true) h))
     = _dirs_exists_on_targets h.
Proof.
  split; [apply on_deleted_dirs|].
  assert (P : preserves same_dirs (on_created (mkEvent src dst true))).
  { unfold on_created. cbn [is_directory]. repeat dirs_go;
      auto using skipped_dirs, ssh_mkdir_dirs. }
  apply P.
Qed.

End Invariants.

(** ** Notifications, one kind at a time *)

Module Handlers.
Import PyStr pathlib Cync Spec Laws Main Hoare PyStrFacts Effects Presence Upload Dispatch.

(** The test that opens every handler changes nothing and never raises. *)
Lemma skipped_run event h :
  skipped event h = mkRes (inr (_is_bad_path h event || _ignore_everything h)) h [].
Proof.
  unfold skipped, _on_git_event.
  rewrite (bind_run _ _ tt) by (destruct (_is_git_path event); reflexivity).
  rewrite get_bind. reflexivity.
Qed.

Lemma skipped_filtered event h :
  _is_bad_path h event = true -> skipped event h = mkRes (inr true) h [].
Proof. intros H. rewrite skipped_run, H. reflexivity. Qed.

Lemma filtered_noop event h :
  _is_bad_path h event = true ->
  on_created event h = mkRes (inr tt) h []
  /\ on_modified event h = mkRes (inr tt) h []
  /\ on_deleted event h = mkRes (inr tt) h []
  /\ on_moved event h = mkRes (inr tt) h [].
Proof.
  intros H. unfold on_created, on_modified, on_deleted, on_moved.
  rewrite !(bind_run _ _ true) by (apply skipped_filtered; exact H).
  repeat split.
Qed.

Lemma endswith_empty s : endswith "" s = true.
Proof. induction s as [|c s IH]; [reflexivity|]. simpl. exact IH. Qed.

Lemma filter_truthy_nil l :
  (forall w, In w l -> w = "") -> List.filter truthy l = [].
Proof.
  induction l as [|x l IH]; intros H; [reflexivity|].
  simpl. rewrite (H x) by (left; reflexivity). simpl. apply IH.
  intros w Hw. apply H. right. exact Hw.
Qed.

Lemma parse_extensions_blank extensions w :
  In w (split "," extensions) -> w <> "" -> PyStrip.strip w = "" ->
  In "" (parse_extensions extensions).
Proof.
  intros Hin Hne Hs. unfold parse_extensions. rewrite <- Hs.
  apply in_map. apply List.filter_In. split; [exact Hin|].
  destruct w; [congruence | reflexivity].
Qed.

Lemma endswith_any_empty l p : In "" l -> endswith_any l p = true.
Proof.
  intros H. unfold endswith_any. apply existsb_exists.
  exists "". split; [exact H | apply endswith_empty].
Qed.


Lemma _scp_file_unfold event h :
  is_directory event = false ->
  _scp_file event h = for_each (targets h) (scp_body h event) h.
Proof.
  intros Hd. unfold _scp_file. rewrite Hd. cbn [negb assert].
  rewrite (bind_run _ _ tt) by reflexivity. rewrite get_bind. reflexivity.
Qed.





End Handlers.

(** ** What a notification asks of the targets *)

Section Notifications.
Import PyStr pathlib Cync Spec Laws Main Hoare PyStrFacts Effects Presence Upload Dispatch.
Import Handlers.

(** X6. A modified notification for a file is handled exactly like a created
    one; for a directory it does nothing at all, whatever the state. *)
Theorem modified_is_created_for_files h event :
  on_modified event h
  = if is_directory event then mkRes (inr tt) h [] else on_created event h.
Proof.
  unfold on_modified, on_created.
  rewrite !(bind_run _ _ _ h (skipped_run event h)).
  destruct (is_directory event); cbn [negb]; [|reflexivity].
  destruct (_is_bad_path h event || _ignore_everything h); reflexivity.
Qed.

(** X7. A path with one of the blacklisted markers in it ([.pyc], [.env/],
    [__pycache__], [.egg]) is ignored by every handler, whatever its
    extension: nothing is sent and the instance is untouched. *)
Theorem blacklisted_paths_are_ignored h event :
  blacklisted (src_path event) = true ->
  on_created event h = mkRes (inr tt) h []
  /\ on_modified event h = mkRes (inr tt) h []
  /\ on_deleted event h = mkRes (inr tt) h []
  /\ on_moved event h = mkRes (inr tt) h [].
Proof.
  intros H. apply filtered_noop. unfold _is_bad_path.
  unfold blacklisted in H. rewrite <- !orb_assoc in H. rewrite !orb_assoc.
  rewrite <- !orb_assoc. rewrite H. apply orb_true_r.
Qed.

Lemma blacklisted_paths_are_ignored_witness :
  let h := __init__ "/w/" ["h:/r"] "py,egg" "" "" in
  let event := mkEvent "/w/build/pkg.egg" "/w/build/pkg.py" false in
  on_created event h = mkRes (inr tt) h []
  /\ on_modified event h = mkRes (inr tt) h []
  /\ on_deleted event h = mkRes (inr tt) h []
  /\ on_moved event h = mkRes (inr tt) h [].
Proof.
  apply (blacklisted_paths_are_ignored
           (__init__ "/w/" ["h:/r"] "py,egg" "" "")
           (mkEvent "/w/build/pkg.egg" "/w/build/pkg.py" false)).
  reflexivity.
Defined.

(** X8. When the extension option has no non-empty item between its commas
    (the empty string, a lone comma), the extension tuple is empty and
    every notification is ignored. *)
Theorem no_extensions_no_replication h extensions event :
  (forall w, In w (split "," extensions) -> w = "") ->
  _extensions h = parse_extensions extensions ->
  on_created event h = mkRes (inr tt) h []
  /\ on_modified event h = mkRes (inr tt) h []
  /\ on_deleted event h = mkRes (inr tt) h []
  /\ on_moved event h = mkRes (inr tt) h [].
Proof.
  intros Hall Hext. apply filtered_noop. unfold _is_bad_path.
  rewrite Hext. unfold parse_extensions. rewrite (filter_truthy_nil _ Hall). reflexivity.
Qed.

Lemma no_extensions_no_replication_witness :
  let h := __init__ "/w/" ["h:/r"] "," "" "" in
  let event := mkEvent "/w/a.py" "/w/b.py" false in
  on_created event h = mkRes (inr tt) h []
  /\ on_modified event h = mkRes (inr tt) h []
  /\ on_deleted event h = mkRes (inr tt) h []
  /\ on_moved event h = mkRes (inr tt) h [].
Proof.
  apply (no_extensions_no_replication
           (__init__ "/w/" ["h:/r"] "," "" "") ","
           (mkEvent "/w/a.py" "/w/b.py" false)).
  - intros w Hw. simpl in Hw. destruct Hw as [<-|[<-|[]]]; reflexivity.
  - reflexivity.
Defined.

(** X9. When the extension option has a non-empty item of blanks only (as in
    "py, ,sh" or "py, "), the item survives the emptiness test, is
    stripped to the empty string, and every path ends with it: the
    extension test accepts everything and only the blacklist is left. *)
Theorem blank_extension_accepts_everything h extensions w event :
  In w (split "," extensions) ->
  w <> "" ->
  PyStrip.strip w = "" ->
  _extensions h = parse_extensions extensions ->
  _is_bad_path h event = blacklisted (src_path event).
Proof.
  intros Hin Hne Hs Hext. unfold _is_bad_path. rewrite Hext.
  rewrite (endswith_any_empty _ _ (parse_extensions_blank _ _ Hin Hne Hs)).
  reflexivity.
Qed.

Lemma blank_extension_accepts_everything_witness :
  _is_bad_path (__init__ "/w/" ["h:/r"] "py, ,sh" "" "") (mkEvent "/w/core.bin" "" false)
  = blacklisted "/w/core.bin".
Proof.
  apply (blank_extension_accepts_everything
           (__init__ "/w/" ["h:/r"] "py, ,sh" "" "") "py, ,sh" " "
           (mkEvent "/w/core.bin" "" false)).
  - simpl. tauto.
  - discriminate.
  - reflexivity.
  - reflexivity.
Defined.










End Notifications.

(** ** A reconciliation that goes through *)

Section ReconciliationRun.
Import PyStr pathlib Cync Spec Laws Main Hoare PyStrFacts Effects Presence Upload Dispatch.
Import Handlers.








End ReconciliationRun.

(** ** Paths and descriptors, further facts *)

Module Paths.
Import PyStr pathlib Cync Spec Laws Main Hoare PyStrFacts Effects.

#[local] Arguments Ascii.eqb : simpl never.
#[local] Arguments String.eqb : simpl never.

Lemma startswith_slash s : startswith "/" s = true -> exists s', s = String "/" s'.
Proof.
  destruct s as [|c s]; cbn [startswith]; [discriminate|].
  destruct (Ascii.eqb_spec "/" c) as [<-|]; [eauto | discriminate].
Qed.

(** A string that starts with "/" parses to a rooted path. *)
Lemma root_Path_absolute s : startswith "/" s = true -> truthy (root (Path s)) = true.
Proof.
  intros H. destruct (startswith_slash _ H) as [s1 ->]. clear H.
  destruct s1 as [|c2 s2]; [reflexivity|].
  destruct c2 as [[] [] [] [] [] [] [] []]; try reflexivity.
  destruct s2 as [|c3 s3]; [reflexivity|].
  destruct c3 as [[] [] [] [] [] [] [] []]; reflexivity.
Qed.

Lemma truediv_absolute p s : startswith "/" s = true -> truediv p (Path s) = Path s.
Proof. intros H. unfold truediv. rewrite (root_Path_absolute _ H). reflexivity. Qed.



Lemma endswith_app suf p : endswith suf (p +:+ suf) = true.
Proof.
  induction p as [|c p IH]; simpl.
  - destruct suf; simpl; rewrite ?String.eqb_refl, ?Ascii.eqb_refl; reflexivity.
  - destruct (String.eqb suf (String c (p +:+ suf))); [reflexivity | exact IH].
Qed.

Lemma contains_char_app c a b :
  contains (String c "") (a +:+ b) = contains (String c "") a || contains (String c "") b.
Proof.
  induction a as [|x a IH]; simpl.
  - destruct b; reflexivity.
  - rewrite IH. destruct (Ascii.eqb c x); simpl; [|reflexivity].
    destruct a; destruct b; reflexivity.
Qed.

Lemma append_assoc a b c : (a +:+ b) +:+ c = a +:+ b +:+ c.
Proof.
  induction a as [|x a IH]; [reflexivity|].
  change (String x ((a +:+ b) +:+ c) = String x (a +:+ b +:+ c)).
  rewrite IH. reflexivity.
Qed.

End Paths.

(** ** Start-up, paths and descriptors *)

Section Startup.
Import PyStr pathlib Cync Spec Laws Main Hoare PyStrFacts Effects Presence Upload Dispatch.
Import Handlers Paths.

(** X18. When what is left of the local path after stripping the watch root
    starts with "/" (a path outside the watch root, or a watch root
    without its final "/"), the remote root is dropped altogether: the
    remote path is that absolute path, the same for every target. *)
Theorem absolute_path_ignores_remote_root watch_root remote_root src :
  startswith "/" (relative_src_path watch_root src) = true ->
  target_path watch_root remote_root src = str (Path (relative_src_path watch_root src)).
Proof. intros H. unfold target_path. rewrite (truediv_absolute _ _ H). reflexivity. Qed.

Lemma absolute_path_ignores_remote_root_witness :
  target_path "/w" "/srv/mirror" "/w/src/a.py" = str (Path (relative_src_path "/w" "/w/src/a.py")).
Proof.
  apply (absolute_path_ignores_remote_root "/w" "/srv/mirror" "/w/src/a.py"). reflexivity.
Defined.

(** X19. The watch root handed to the handler always ends with "/", and
    normalizing it again changes nothing. *)
Theorem watch_root_ends_with_slash cwd path :
  endswith "/" (normalize_path cwd path) = true
  /\ normalize_path cwd (normalize_path cwd path) = normalize_path cwd path.
Proof.
  assert (E : endswith "/" (normalize_path cwd path) = true).
  { unfold normalize_path.
    destruct (endswith "/" (if String.eqb path "." then cwd else path)) eqn:E; simpl;
      [exact E | apply endswith_app]. }
  split; [exact E|].
  unfold normalize_path at 1.
  destruct (String.eqb_spec (normalize_path cwd path) ".") as [Heq|_].
  - rewrite Heq in E. discriminate.
  - rewrite E. reflexivity.
Qed.



(** X21. With [--reset-targets] and not [--create-if-missing], start-up is one
    reconciliation from a handler whose last reconciled branch is the
    empty string: unless the active branch has the empty name the push is
    attempted first, and if it fails start-up ends there with the push
    error. *)
Theorem startup_reconciles cwd repo path targets extensions :
  active_branch repo <> "" ->
  let h0 := __init__ (normalize_path cwd path) (expand_targets targets) extensions "" "" in
  cync cwd repo path targets extensions false true = Started (reset_targets repo h0)
  /\ (exists t, trace (reset_targets repo h0) = GitPush :: t)
  /\ (push_ok repo = false ->
      outcome (reset_targets repo h0) = inl GitCommandError
      /\ trace (reset_targets repo h0) = [GitPush]).
Proof.
  intros Hne h0. split; [|split].
  - unfold cync. cbn [when]. fold h0. f_equal; try (apply bind_run; reflexivity).
  - unfold reset_targets. rewrite get_bind.
    assert (E : String.eqb (active_branch repo) (_current_branch h0) = false)
      by (apply String.eqb_neq; exact Hne).
    rewrite E. cbn [negb]. unfold mbind, M_bind, bind. cbn.
    destruct (push_ok repo); cbn; [|eauto].
    destruct (outcome _); cbn; [eauto|].
    destruct (outcome _); cbn; eauto.
  - intros Hpush. rewrite reset_targets_push_failure; [split; reflexivity | exact Hne | exact Hpush].
Qed.

Lemma startup_reconciles_witness :
  let repo := mkRepo "main" ["notes.txt"] false in
  let h0 := __init__ (normalize_path "/home/me/proj" ".") (expand_targets ["c"]) "py" "" "" in
  cync "/home/me/proj" repo "." ["c"] "py" false true = Started (reset_targets repo h0)
  /\ (exists t, trace (reset_targets repo h0) = GitPush :: t)
  /\ (push_ok repo = false ->
      outcome (reset_targets repo h0) = inl GitCommandError
      /\ trace (reset_targets repo h0) = [GitPush]).
Proof.
  apply (startup_reconciles "/home/me/proj" (mkRepo "main" ["notes.txt"] false) "." ["c"] "py").
  discriminate.
Defined.

(** X22. The descriptor grammar, read back: [host:root] gives no user, the host
    and the root; [user@host:root] gives the user, the host and the root.
    The root may itself contain ":" and "@"; the delete path parses both
    forms to the same endpoint. *)
Theorem descriptor_is_read_back u host root :
  contains ":" u = false ->
  contains "@" u = false ->
  contains ":" host = false ->
  contains "@" host = false ->
  parse_target (host +:+ ":" +:+ root) = inr (mkEndpoint None host root)
  /\ parse_target_rm (host +:+ ":" +:+ root) = inr (mkEndpoint None host root)
  /\ parse_target (u +:+ "@" +:+ host +:+ ":" +:+ root) = inr (mkEndpoint (Some u) host root)
  /\ parse_target_rm (u +:+ "@" +:+ host +:+ ":" +:+ root)
     = inr (mkEndpoint (Some u) host root).
Proof.
  intros Hu1 Hu2 Hh1 Hh2.
  assert (E1 : parse_target (host +:+ ":" +:+ root) = inr (mkEndpoint None host root)).
  { rewrite (parse_target_separator _ _ Hh1). unfold split_user. rewrite Hh2. reflexivity. }
  assert (Hc : contains ":" (u +:+ "@" +:+ host) = false).
  { change ":" with (String ":" ""). rewrite !contains_char_app.
    change (String ":" "") with ":". rewrite Hu1, Hh1. reflexivity. }
  assert (E2 : parse_target ((u +:+ "@" +:+ host) +:+ ":" +:+ root)
               = inr (mkEndpoint (Some u) host root)).
  { rewrite (parse_target_separator _ _ Hc). unfold split_user, split1.
    change ("@" +:+ host) with (String "@" host).
    change "@" with (String "@" "") at 1 2.
    rewrite contains_separator, (partition_first _ _ _ Hu2). reflexivity. }
  assert (A : (u +:+ "@" +:+ host) +:+ ":" +:+ root = u +:+ "@" +:+ host +:+ ":" +:+ root).
  { exact (append_assoc u ("@" +:+ host) (":" +:+ root)). }
  rewrite A in E2.
  split; [exact E1|]. split; [|split; [exact E2|]].
  - rewrite parse_target_rm_separator; [exact E1|].
    change (":" +:+ root) with (String ":" root). apply contains_separator.
  - rewrite parse_target_rm_separator; [exact E2|].
    rewrite <- A. change (":" +:+ root) with (String ":" root). apply contains_separator.
Qed.

Lemma descriptor_is_read_back_witness :
  parse_target ("build01" +:+ ":" +:+ "/srv/app:v2") = inr (mkEndpoint None "build01" "/srv/app:v2")
  /\ parse_target_rm ("build01" +:+ ":" +:+ "/srv/app:v2")
     = inr (mkEndpoint None "build01" "/srv/app:v2")
  /\ parse_target ("deploy" +:+ "@" +:+ "build01" +:+ ":" +:+ "/srv/app:v2")
     = inr (mkEndpoint (Some "deploy") "build01" "/srv/app:v2")
  /\ parse_target_rm ("deploy" +:+ "@" +:+ "build01" +:+ ":" +:+ "/srv/app:v2")
     = inr (mkEndpoint (Some "deploy") "build01" "/srv/app:v2").
Proof.
  apply (descriptor_is_read_back "deploy" "build01" "/srv/app:v2"); reflexivity.
Defined.

(** X23. With no target configured, every notification returns normally without
    sending anything and without touching the instance. *)
Theorem no_targets_nothing_sent h event :
  targets h = [] ->
  on_created event h = mkRes (inr tt) h []
  /\ on_modified event h = mkRes (inr tt) h []
  /\ on_deleted event h = mkRes (inr tt) h []
  /\ on_moved event h = mkRes (inr tt) h [].
Proof.
  intros Ht.
  assert (Hmk : forall x, is_directory x = true -> ssh_mkdir (inl x) h = mkRes (inr tt) h []).
  { intros x Hx. unfold ssh_mkdir. rewrite Hx. cbn [assert].
    rewrite (bind_run _ _ tt) by reflexivity. rewrite get_bind, Ht. reflexivity. }
  assert (Hscp : forall x, is_directory x = false -> _scp_file x h = mkRes (inr tt) h []).
  { intros x Hx. rewrite (_scp_file_unfold _ _ Hx), Ht. reflexivity. }
  assert (Hrm : forall x, _ssh_rm x h = mkRes (inr tt) h []).
  { intros x. unfold _ssh_rm. rewrite get_bind, Ht. reflexivity. }
  assert (Hc : forall x, on_created x h = mkRes (inr tt) h []).
  { intros x. unfold on_created. rewrite (bind_run _ _ _ h (skipped_run x h)).
    destruct (_is_bad_path h x || _ignore_everything h); [reflexivity|].
    destruct (is_directory x) eqn:Hx; [apply Hmk | apply Hscp]; exact Hx. }
  assert (Hd : forall x, on_deleted x h = mkRes (inr tt) h []).
  { intros x. unfold on_deleted. rewrite (bind_run _ _ _ h (skipped_run x h)).
    destruct (_is_bad_path h x || _ignore_everything h); [reflexivity | apply Hrm]. }
  split; [apply Hc|]. split; [|split; [apply Hd|]].
  - unfold on_modified. rewrite (bind_run _ _ _ h (skipped_run event h)).
    destruct (_is_bad_path h event || _ignore_everything h); [reflexivity|].
    destruct (is_directory event) eqn:Hx; cbn [negb]; [reflexivity | apply Hscp; exact Hx].
  - unfold on_moved. rewrite (bind_run _ _ _ h (skipped_run event h)).
    destruct (_is_bad_path h event || _ignore_everything h); [reflexivity|].
    rewrite (bind_run _ _ tt) by apply Hd. apply Hc.
Qed.

Lemma no_targets_nothing_sent_witness :
  let h := __init__ "/w/" [] "py" "" "" in
  let event := mkEvent "/w/a.py" "/w/b.py" false in
  on_created event h = mkRes (inr tt) h []
  /\ on_modified event h = mkRes (inr tt) h []
  /\ on_deleted event h = mkRes (inr tt) h []
  /\ on_moved event h = mkRes (inr tt) h [].
Proof.
  apply (no_targets_nothing_sent (__init__ "/w/" [] "py" "" "") (mkEvent "/w/a.py" "/w/b.py" false)).
  reflexivity.
Defined.

(** The marking walk of the presence cache, at work on a path of three
    components with more fuel than it needs. *)
Lemma mark_loop_fuel_witness :
  mark_loop 10 "h" (Path "/r") (Path "src/pkg/sub") (__init__ "/w/" ["h:/r"] "py" "" "")
  = mark_loop 4 "h" (Path "/r") (Path "src/pkg/sub") (__init__ "/w/" ["h:/r"] "py" "" "").
Proof.
  apply (mark_loop_fuel 10 4 "h" (Path "/r") (Path "src/pkg/sub")
           (__init__ "/w/" ["h:/r"] "py" "" "")).
  - simpl. lia.
  - simpl. lia.
  - reflexivity.
Defined.

Lemma target_path_relativized_witness :
  spec_remote_path "/w/" "/r/" ("/w/" +:+ "src/a.py")
  = Some (target_path "/w/" "/r/" ("/w/" +:+ "src/a.py")).
Proof. apply (target_path_relativized "/w/" "/r/" "src/a.py"). reflexivity. Defined.

End Startup.
